(** * net-means: the k-means centroid and the vector distance helpers

    A shallow embedding of [kmeans.Centroid] (its constructor and its
    add / drain / expire / trim / move / distribute / lookup methods) and of
    [mathutils.EuclideanDistance], with the properties of the specification
    stated and settled against them.

    Conventions of the embedding:
    - a Go [int] is a [Z]; loop counters that only count up from 0 are [nat];
    - a Go slice of payloads is a [list] together with its capacity;
    - a run-time panic (index out of range, [make] with a capacity it does
      not grant) is the outcome [Panic];
    - a method with a pointer receiver takes the centroid and returns the
      updated centroid next to its Go result;
    - a [for cond { body }] loop is [while fuel cond body]; the fuel is the
      loop's variant and every theorem below shows the loop finishes within
      it (no result is [OutOfFuel]);
    - the centroid never computes with the coordinates of a vector, so
      [float64] is a type parameter there; [EuclideanDistance] and
      [CosineSimilarity] are written over the [float64] operations they
      use, which are the operations of the IEEE 754 binary64 numbers. *)

From Stdlib Require Import ZArith List Lia Bool.
From Stdlib Require PrimFloat Floats.
From stdpp Require Import base option list strings gmap.

Set Default Proof Using "Type".
Local Open Scope Z_scope.

(** ** Outcomes of a Go call *)

Inductive result (A : Type) : Type :=
| Ok (a : A)
| Panic
| OutOfFuel.
Arguments Ok {A} a.
Arguments Panic {A}.
Arguments OutOfFuel {A}.

#[export] Instance result_ret : MRet result := fun _ a => Ok a.
#[export] Instance result_bind : MBind result := fun _ _ f m =>
  match m with
  | Ok a => f a
  | Panic => Panic
  | OutOfFuel => OutOfFuel
  end.

#[export] Instance result_fmap : FMap result := fun _ _ f m =>
  match m with
  | Ok a => Ok (f a)
  | Panic => Panic
  | OutOfFuel => OutOfFuel
  end.

(** [for cond { body }]. *)
Fixpoint while {S : Type} (fuel : nat) (cond : S -> bool)
    (body : S -> result S) (s : S) : result S :=
  if cond s then
    match fuel with
    | O => OutOfFuel
    | Datatypes.S fuel' => body s ≫= while fuel' cond body
    end
  else Ok s.

(** [for _, x := range xs { body }] over a slice that the body does not
    change. *)
Fixpoint forRange {S X : Type} (body : S -> X -> result S) (xs : list X)
    (s : S) : result S :=
  match xs with
  | [] => Ok s
  | x :: xs' => body s x ≫= forRange body xs'
  end.

(** [s[i]] for a Go [int] index: panics out of range. *)
Definition index {A : Type} (s : list A) (i : Z) : result A :=
  if (0 <=? i) && (i <? Z.of_nat (length s)) then
    match s !! Z.to_nat i with
    | Some a => Ok a
    | None => Panic
    end
  else Panic.

(** ** Interfaces *)

(** [common.PayloadContainer]: a data point with its vector and its expiry
    predicate.  [Expired] is a function of the payload: the payload's clock
    does not move during one call. *)
Class PayloadContainer (float64 P : Type) := {
  Vec : P -> list float64;
  Expired : P -> bool
}.

(** A consumer of a [vecGenerator = func() ([]float64, bool)]: it either
    answers, or calls the generator once more and goes on with what the
    generator returned ([None] for [(nil, false)]).  A consumer is a
    well-founded tree, so it returns whatever the generator does; a Go
    function that reads a generator to its end is, on a collection of at
    most [n] payloads, the consumer that unfolds its loop [n + 1] times. *)
Inductive consumer (float64 A : Type) : Type :=
| Answer (a : A)
| Pull (k : option (list float64) -> consumer float64 A).
Arguments Answer {float64 A} a.
Arguments Pull {float64 A} k.

(** Runs a consumer against a generator given by its step on a state. *)
Fixpoint feed {float64 A St : Type}
    (gen : St -> result (option (list float64) * St))
    (p : consumer float64 A) (s : St) : result (A * St) :=
  match p with
  | Answer a => Ok (a, s)
  | Pull k => gen s ≫= fun '(v, s') => feed gen (k v) s'
  end.

(** [knnSearchFunc = func(targetVec []float64, vecs vecGenerator, k int) []int]:
    the generator argument is the one the consumer is fed with. *)
Definition knnSearchFunc (float64 : Type) : Type :=
  list float64 -> Z -> consumer float64 (list Z).

(** ** The centroid *)

Section Kmeans.
Context {float64 P : Type} `{PayloadContainer float64 P}.

(** [growslice oldcap newlen]: the capacity the Go run time picks when an
    [append] does not fit. *)
Variable growslice : nat -> nat -> nat.

(** [mathutils.VecMean], as a consumer of the generator it is given. *)
Variable VecMean : consumer float64 (list float64 * bool).

(** The largest capacity [make([]payloadContainer, 0, n)] grants.  The run
    time refuses a capacity whose size in bytes is beyond its allocation
    limit (2^44 two-word interface values on linux/amd64), and a process
    short of memory gets less. *)
Variable maxcap : Z.

(** [type Centroid struct].  [V] is what the field [vec] holds: the
    vector itself in the methods below, a reference into the store of
    arrays in [NewCentroid].  [DataPoints_cap] is [cap(c.DataPoints)]. *)
Record CentroidOf (V : Type) : Type := mkCentroid {
  vec : V;
  DataPoints : list P;
  DataPoints_cap : nat;
  knnSearch : knnSearchFunc float64;
  kfnSearch : knnSearchFunc float64
}.
Arguments mkCentroid {V}.
Arguments vec {V}.
Arguments DataPoints {V}.
Arguments DataPoints_cap {V}.
Arguments knnSearch {V}.
Arguments kfnSearch {V}.

Definition Centroid : Type := CentroidOf (list float64).

Definition set_vec {V W : Type} (c : CentroidOf V) (v : W) : CentroidOf W :=
  mkCentroid v (DataPoints c) (DataPoints_cap c) (knnSearch c) (kfnSearch c).

Definition set_DataPoints {V : Type} (c : CentroidOf V) (dp : list P)
    (cp : nat) : CentroidOf V :=
  mkCentroid (vec c) dp cp (knnSearch c) (kfnSearch c).

(** [append(s, p)] on a slice with its capacity. *)
Definition append (s : list P) (cp : nat) (p : P) : list P * nat :=
  (s ++ [p],
   if (length s <? cp)%nat then cp else growslice cp (Datatypes.S (length s))).

(** [make([]payloadContainer, 0, n)]: an empty slice of capacity [n].  It
    panics ([makeslice: cap out of range]) for a negative [n] and for an
    [n] beyond [maxcap]. *)
Definition make (n : Z) : result (list P * nat) :=
  if (0 <=? n) && (n <=? maxcap) then Ok ([], Z.to_nat n) else Panic.

(** [func (c *Centroid) Vec() []float64] *)
Definition Centroid_Vec (c : Centroid) : list float64 := vec c.

(** [func (c *Centroid) AddPayload(p payloadContainer) bool] *)
Definition AddPayload (c : Centroid) (p : P) : bool * Centroid :=
  if negb (length (Vec p) =? length (vec c))%nat || Expired p then
    (false, c)
  else
    let '(dp, cp) := append (DataPoints c) (DataPoints_cap c) p in
    (true, set_DataPoints c dp cp).

(** [func (c *Centroid) rmPayload(index int)]:
    [append(c.DataPoints[:index], c.DataPoints[index+1:]...)].  The slice
    expression [c.DataPoints[index+1:]] panics unless
    [0 <= index+1 <= len]; [c.DataPoints[:index]] panics for a negative
    [index].  The tail is shifted down inside the same backing array, so
    the capacity stays. *)
Definition rmPayload (c : Centroid) (index : Z) : result Centroid :=
  let dp := DataPoints c in
  if (0 <=? index) && (index + 1 <=? Z.of_nat (length dp)) then
    Ok (set_DataPoints c
          (take (Z.to_nat index) dp ++ drop (Z.to_nat (index + 1)) dp)
          (DataPoints_cap c))
  else Panic.

(** [func (c *Centroid) LenDP() int] *)
Definition LenDP (c : Centroid) : Z := Z.of_nat (length (DataPoints c)).

(** [func (c *Centroid) payloadVecGenerator() func() ([]float64, bool)]:
    one call of the returned closure.  The closure's state is its cursor
    [i] and the centroid it captured. *)
Definition payloadVecGenerator (st : nat * Centroid)
    : result (option (list float64) * (nat * Centroid)) :=
  let '(i, c) := st in
  (* for i < len(c.DataPoints) && c.DataPoints[i].Expired() { c.rmPayload(i) } *)
  c' ← while (length (DataPoints c))
          (fun c => match DataPoints c !! i with
                    | Some p => Expired p
                    | None => false
                    end)
          (fun c => rmPayload c (Z.of_nat i)) c;
  if (length (DataPoints c') <=? i)%nat then Ok (None, (i, c'))
  else
    (* i++; return c.DataPoints[i-1].Vec(), true *)
    p ← index (DataPoints c') (Z.of_nat (Datatypes.S i) - 1);
    Ok (Some (Vec p), (Datatypes.S i, c')).

(** [func (c *Centroid) DrainUnordered(n int) []payloadContainer] *)
Definition DrainUnordered (c : Centroid) (n : Z)
    : result (list P * Centroid) :=
  (* res := make([]payloadContainer, 0, n) *)
  '(res, _) ← make n;
  while (length (DataPoints c))
    (fun '(res, c) =>
       negb (length (DataPoints c) =? 0)%nat && (Z.of_nat (length res) <? n))
    (fun '(res, c) =>
       p ← index (DataPoints c) 0;
       let res' := if negb (Expired p) then res ++ [p] else res in
       c' ← rmPayload c 0;
       Ok (res', c'))
    (res, c).

(** The two loops over [indexes] shared by [DrainOrdered] and [KNNLookup]:
    [res = append(res, c.DataPoints[i])], from the empty [res] that [make]
    returned, and [c.rmPayload(i)]. *)
Definition collect (c : Centroid) (indexes : list Z) : result (list P) :=
  forRange (fun res i => p ← index (DataPoints c) i; Ok (res ++ [p]))
    indexes [].

Definition drain (c : Centroid) (indexes : list Z) : result Centroid :=
  forRange rmPayload indexes c.

(** [func (c *Centroid) DrainOrdered(n int) []payloadContainer] *)
Definition DrainOrdered (c : Centroid) (n : Z) : result (list P * Centroid) :=
  (* res := make([]payloadContainer, 0, n) *)
  _ ← make n;
  '(indexes, (_, c1)) ←
    feed payloadVecGenerator (kfnSearch c (vec c) n) (0%nat, c);
  res ← collect c1 indexes;
  c2 ← drain c1 indexes;
  Ok (res, c2).

(** [func (c *Centroid) Expire()] *)
Definition Expire (c : Centroid) : result Centroid :=
  '(_, c') ←
    while (length (DataPoints c))
      (fun '(i, c) => (i <? length (DataPoints c))%nat)
      (fun '(i, c) =>
         p ← index (DataPoints c) (Z.of_nat i);
         if Expired p then
           c' ← rmPayload c (Z.of_nat i);
           Ok (i, c')
         else Ok (Datatypes.S i, c))
      (0%nat, c);
  Ok c'.

(** [func (c *Centroid) MemTrim()]: the new slice is made with the length
    the old one has before the expired entries are left out ([make] grants
    it: the old slice has at least that capacity). *)
Definition MemTrim (c : Centroid) : result Centroid :=
  let dp0 : list P * nat := ([], length (DataPoints c)) in
  '(dp, cp) ←
    forRange
      (fun '(dp, cp) i =>
         p ← index (DataPoints c) (Z.of_nat i);
         if negb (Expired p) then Ok (append dp cp p) else Ok (dp, cp))
      (seq 0 (length (DataPoints c))) dp0;
  Ok (set_DataPoints c dp cp).

(** [func (c *Centroid) MoveVector() bool] *)
Definition MoveVector (c : Centroid) : result (bool * Centroid) :=
  '((v, ok), (_, c')) ← feed payloadVecGenerator VecMean (0%nat, c);
  if ok : bool then Ok (ok, set_vec c' v) else Ok (ok, c').

(** [func (c *Centroid) KNNLookup(vec []float64, k int, drain bool)
    []payloadContainer] *)
Definition KNNLookup (c : Centroid) (v : list float64) (k : Z) (dr : bool)
    : result (list P * Centroid) :=
  (* res := make([]payloadContainer, 0, k) *)
  _ ← make k;
  '(indexes, (_, c1)) ←
    feed payloadVecGenerator (knnSearch c v k) (0%nat, c);
  res ← collect c1 indexes;
  if dr then c2 ← drain c1 indexes; Ok (res, c2) else Ok (res, c1).

(** *** Redistribution

    [DistributePayload] works on several centroids at once and the
    receiver may be the distributing centroid itself, so the centroids
    live in a heap and are named by their addresses.  The receivers are
    [common.PayloadReceiver] values; the implementation of that interface
    in this package is the centroid; a heap is a [gmap nat Centroid]. *)
Definition deref (h : gmap nat Centroid) (a : nat) : result Centroid :=
  match h !! a with
  | Some c => Ok c
  | None => Panic
  end.

(** The closure [generator] of [DistributePayload], with its cursor [i]. *)
Definition receiverGenerator (h : gmap nat Centroid) (receivers : list nat)
    (i : nat) : result (option (list float64) * nat) :=
  if (length receivers <=? i)%nat then Ok (None, i)
  else
    a ← index receivers (Z.of_nat (Datatypes.S i) - 1);
    r ← deref h a;
    Ok (Some (Centroid_Vec r), Datatypes.S i).

(** The body of [for j := 0; j < len(data); j++] for the payload
    [data[j]]. *)
Definition distributeOne (self : nat) (receivers : list nat)
    (h : gmap nat Centroid) (p : P) : result (gmap nat Centroid) :=
  c ← deref h self;
  '(indexes, _) ←
    feed (receiverGenerator h receivers) (knnSearch c (Vec p) 1) 0%nat;
  '(accepted, h') ←
    match indexes with
    | [] => Ok (false, h)
    | i0 :: _ =>
        a ← index receivers i0;
        r ← deref h a;
        let '(ok, r') := AddPayload r p in
        Ok (ok, <[a := r']> h)
    end;
  if accepted : bool then Ok h'
  else
    c ← deref h' self;
    Ok (<[self := (AddPayload c p).2]> h').

(** [func (c *Centroid) DistributePayload(n int, receivers []payloadReceiver)] *)
Definition DistributePayload (h : gmap nat Centroid) (self : nat) (n : Z)
    (receivers : list nat) : result (gmap nat Centroid) :=
  if (length receivers =? 0)%nat then Ok h
  else
    c ← deref h self;
    '(data, c') ← DrainOrdered c n;
    forRange (distributeOne self receivers) data (<[self := c']> h).

(** The vectors the receivers report, and all the payloads held by the
    centroids of a heap. *)
Definition recvVecs (h : gmap nat Centroid) (receivers : list nat)
    : list (list float64) :=
  (fun a => match h !! a with
            | Some r => Centroid_Vec r
            | None => []
            end) <$> receivers.

Definition payloads (h : gmap nat Centroid) : list P :=
  map_to_list h ≫= fun x => DataPoints x.2.

(** What the loop of [DistributePayload] keeps: the distributing centroid
    is in the heap with its vector and its nearest-neighbour search, the
    receivers are in the heap and report the same vectors. *)
Definition distributing (self : nat) (receivers : list nat) (c0 : Centroid)
    (vecs : list (list float64)) (h : gmap nat Centroid) : Prop :=
  (exists c : Centroid,
     h !! self = Some c /\ vec c = vec c0 /\ knnSearch c = knnSearch c0) /\
  Forall (fun a => is_Some (h !! a)) receivers /\
  recvVecs h receivers = vecs.

(** *** Construction

    [NewCentroid] copies the caller's vector, so the vectors are arrays in
    a store here and a [[]float64] is a reference to its array ([None] for
    the nil slice). *)
Variable zero : float64.

Record NewCentroidArgs : Type := mkNewCentroidArgs {
  InitVec : option nat;
  InitCap : Z;
  KNNSearchFunc : option (knnSearchFunc float64);
  KFNSearchFunc : option (knnSearchFunc float64)
}.

Definition contents (σ : gmap nat (list float64)) (s : option nat)
    : list float64 :=
  match s with
  | Some a => default [] (σ !! a)
  | None => []
  end.

(** [func NewCentroid(args NewCentroidArgs)], returning the pointer to the
    new centroid (with the store it lives in) and the [ok] flag. *)
Definition NewCentroid (σ : gmap nat (list float64)) (args : NewCentroidArgs)
    : result (gmap nat (list float64) * option (CentroidOf nat) * bool) :=
  match KNNSearchFunc args, KFNSearchFunc args with
  | Some knn, Some kfn =>
      (* make([]float64, len(args.InitVec)) *)
      let a := fresh (dom σ) in
      let σ1 := <[a := replicate (length (contents σ (InitVec args))) zero]> σ in
      (* make([]payloadContainer, 0, args.InitCap) *)
      '(dp, cp) ← make (InitCap args);
      let c := mkCentroid a dp cp knn kfn in
      (* for i, v := range args.InitVec { c.vec[i] = v } *)
      σ2 ← forRange
             (fun σ i =>
                v ← index (contents σ (InitVec args)) (Z.of_nat i);
                _ ← index (contents σ (Some a)) (Z.of_nat i);
                Ok (<[a := <[i := v]> (contents σ (Some a))]> σ))
             (seq 0 (length (contents σ (InitVec args)))) σ1;
      Ok (σ2, Some c, true)
  | _, _ => Ok (σ, None, false)
  end.

(** *** Vocabulary of the statements *)

(** A payload that has not expired. *)
Definition live (p : P) : Prop := Expired p = false.

#[export] Instance live_dec (p : P) : Decision (live p).
Proof. unfold live. apply _. Defined.

Definition expired (p : P) : Prop := Expired p = true.

(** What running a consumer against the generator can do to the centroid:
    only expired payloads leave the collection, the first [i] payloads are
    the ones handed out (none of them expired), and nothing else of the
    centroid changes. *)
Definition evicted (c : Centroid) (i : nat) (c' : Centroid) : Prop :=
  (i <= length (DataPoints c'))%nat /\
  Forall live (take i (DataPoints c')) /\
  filter live (DataPoints c') = filter live (DataPoints c) /\
  DataPoints c' `sublist_of` DataPoints c /\
  c' = set_DataPoints c (DataPoints c') (DataPoints_cap c).

(** An index list a two-pass removal handles: strictly decreasing. *)
Fixpoint descending (l : list Z) : bool :=
  match l with
  | [] => true
  | i :: l' =>
      match l' with
      | [] => true
      | j :: _ => (j <? i) && descending l'
      end
  end.

(** What a consumer answers on a finite sequence of vectors. *)
Fixpoint feedList {A : Type} (p : consumer float64 A)
    (vs : list (list float64)) : A :=
  match p with
  | Answer a => a
  | Pull k =>
      match vs with
      | [] => feedList (k None) []
      | v :: vs' => feedList (k (Some v)) vs'
      end
  end.

(** The acceptance condition of [AddPayload], as a property of the whole
    collection: every payload has a vector of the length of the centroid's
    vector. *)
Definition consistent (c : Centroid) : Prop :=
  Forall (fun p => length (Vec p) = length (vec c)) (DataPoints c).

(** A caller handing payloads to [AddPayload] one after the other, as the
    loop of [DistributePayload] does with the drained ones. *)
Definition addAll (c : Centroid) (ps : list P) : Centroid :=
  foldl (fun c p => (AddPayload c p).2) c ps.

(** What a centroid built by [NewCentroid] holds, read through the store. *)
Definition load (σ : gmap nat (list float64)) (c : CentroidOf nat) : Centroid :=
  set_vec c (contents σ (Some (vec c))).

End Kmeans.

Arguments CentroidOf : clear implicits.
Arguments Centroid : clear implicits.
Arguments mkCentroid {float64 P V}.
Arguments vec {float64 P V}.
Arguments DataPoints {float64 P V}.
Arguments DataPoints_cap {float64 P V}.
Arguments knnSearch {float64 P V}.
Arguments kfnSearch {float64 P V}.
Arguments mkNewCentroidArgs {float64}.
Arguments InitVec {float64}.
Arguments InitCap {float64}.
Arguments KNNSearchFunc {float64}.
Arguments KFNSearchFunc {float64}.

(** ** mathutils *)

(** The [float64] operations [EuclideanDistance] uses. *)
Class Float64Ops (F : Type) := {
  f_zero : F;
  f_add : F -> F -> F;
  f_sub : F -> F -> F;
  f_mul : F -> F -> F;
  f_sqrt : F -> F
}.

Section Mathutils.
Context {F : Type} `{Float64Ops F}.

(** [func EuclideanDistance(v1, v2 []float64) (float64, error)]; a vector is
    [None] for the nil slice and the error is its message. *)
Definition EuclideanDistance (v1 v2 : option (list F))
    : result (F * option string) :=
  match v1, v2 with
  | Some a1, Some a2 =>
      if negb (length a1 =? length a2)%nat then
        let s := "distance measurement attempt failed: "%string in
        let s := String.append s "vectors are of different lengths" in
        Ok (f_zero, Some s)
      else
        (* var r float64; for i := 0; i < len(v1); i++ { r += ... } *)
        r ← forRange
              (fun r i =>
                 x ← index a1 (Z.of_nat i);
                 y ← index a2 (Z.of_nat i);
                 Ok (f_add r (f_sqrt (f_mul (f_sub x y) (f_sub x y)))))
              (seq 0 (length a1)) f_zero;
        Ok (r, None)
  | _, _ => Ok (f_zero, Some "nil vec"%string)
  end.

(** One turn of the loop on the pair of coordinates [(v1[i], v2[i])]. *)
Definition sqrt_sq_step (r : F) (xy : F * F) : F :=
  f_add r (f_sqrt (f_mul (f_sub xy.1 xy.2) (f_sub xy.1 xy.2))).

End Mathutils.

(** [float64] as the IEEE 754 binary64 numbers. *)
#[export] Instance binary64_ops : Float64Ops PrimFloat.float := {
  f_zero := PrimFloat.zero;
  f_add := PrimFloat.add;
  f_sub := PrimFloat.sub;
  f_mul := PrimFloat.mul;
  f_sqrt := PrimFloat.sqrt
}.

(** The division and the comparison [==] of [float64], which
    [CosineSimilarity] needs on top. *)
Class Float64Div (F : Type) := {
  f_div : F -> F -> F;
  f_eq : F -> F -> bool
}.

Section MathutilsCosine.
Context {F : Type} `{Float64Ops F} `{Float64Div F}.

(** [func norm(vec []float64) float64] *)
Definition norm (vec : list F) : result F :=
  x ← forRange
        (fun x i =>
           v ← index vec (Z.of_nat i);
           Ok (f_add x (f_mul v v)))
        (seq 0 (length vec)) f_zero;
  Ok (f_sqrt x).

(** [func CosineSimilarity(v1, v2 []float64) (float64, error)] *)
Definition CosineSimilarity (v1 v2 : option (list F))
    : result (F * option string) :=
  match v1, v2 with
  | Some a1, Some a2 =>
      if negb (length a1 =? length a2)%nat then
        let s := "similarity measurement attempt failed: "%string in
        let s := String.append s "vectors are of different lengths" in
        Ok (f_zero, Some s)
      else
        norm1 ← norm a1;
        norm2 ← norm a2;
        if f_eq norm1 f_zero && f_eq norm2 f_zero then Ok (f_zero, None)
        else
          (* var dot float64; for i := 0; i < len(v1); i++ { dot += ... } *)
          dot ← forRange
                  (fun dot i =>
                     x ← index a1 (Z.of_nat i);
                     y ← index a2 (Z.of_nat i);
                     Ok (f_add dot (f_mul x y)))
                  (seq 0 (length a1)) f_zero;
          Ok (f_div (f_div dot norm1) norm2, None)
  | _, _ => Ok (f_zero, Some "nil vec"%string)
  end.

End MathutilsCosine.

#[export] Instance binary64_div : Float64Div PrimFloat.float := {
  f_div := PrimFloat.div;
  f_eq := PrimFloat.eqb
}.

(** *** Vocabulary of the statements on binary64 numbers *)

(** [float64(z)] for an integer [z]: the conversion is exact below 2^53. *)
Fixpoint pos2F (p : positive) : PrimFloat.float :=
  match p with
  | xH => PrimFloat.one
  | xO p' => PrimFloat.mul PrimFloat.two (pos2F p')
  | xI p' =>
      PrimFloat.add (PrimFloat.mul PrimFloat.two (pos2F p')) PrimFloat.one
  end.

Definition ofInt (z : Z) : PrimFloat.float :=
  match z with
  | Z0 => PrimFloat.zero
  | Zpos p => pos2F p
  | Zneg p => PrimFloat.opp (pos2F p)
  end.

(** The L1 (Manhattan) distance: of two integer vectors, and of two binary64
    vectors with the sum accumulated from 0 in index order. *)
Definition manhattanZ (a1 a2 : list Z) : Z :=
  foldr Z.add 0 (zip_with (fun x y => Z.abs (x - y)) a1 a2).

Definition manhattan (a1 a2 : list PrimFloat.float) : PrimFloat.float :=
  foldl (fun r xy => PrimFloat.add r (PrimFloat.abs (PrimFloat.sub xy.1 xy.2)))
    PrimFloat.zero (zip a1 a2).

(** The L2 (Euclidean) distance of two binary64 vectors, the sum of the
    squares accumulated the same way. *)
Definition euclidean (a1 a2 : list PrimFloat.float) : PrimFloat.float :=
  PrimFloat.sqrt
    (foldl (fun r xy =>
              PrimFloat.add r
                (PrimFloat.mul (PrimFloat.sub xy.1 xy.2) (PrimFloat.sub xy.1 xy.2)))
       PrimFloat.zero (zip a1 a2)).

(** A zero of either sign. *)
Definition isZero (x : PrimFloat.float) : Prop :=
  x = PrimFloat.zero \/ x = PrimFloat.neg_zero.

(** On the specification of a binary64 number by sign, mantissa and
    exponent: not negative (NaN, or a number whose sign bit is not set), and
    a zero of either sign or NaN. *)
Definition SFnonneg (x : SpecFloat.spec_float) : bool :=
  match x with
  | SpecFloat.S754_nan => true
  | SpecFloat.S754_zero s
  | SpecFloat.S754_infinity s
  | SpecFloat.S754_finite s _ _ => negb s
  end.

Definition SFzn (x : SpecFloat.spec_float) : bool :=
  match x with
  | SpecFloat.S754_zero _ | SpecFloat.S754_nan => true
  | _ => false
  end.

(** ** A concrete scenario

    Payloads, search strategies and a mean over binary64 vectors, to run the
    methods on.  The strategies rank the candidates by their
    [EuclideanDistance] to the target. *)
Module Scenario.
Import PrimFloat.

Record payload : Type := mkPayload {
  name : nat;
  position : list float;
  stale : bool
}.

#[export] Instance payload_container : PayloadContainer float payload := {
  Vec := position;
  Expired := stale
}.

(** Calls the generator until it is exhausted, at most [bound] times, and
    answers from the vectors read. *)
Fixpoint readAll {A : Type} (bound : nat) (seen : list (list float))
    (answer : list (list float) -> A) : consumer float A :=
  match bound with
  | O => Answer (answer seen)
  | S bound' =>
      Pull (fun v =>
              match v with
              | None => Answer (answer seen)
              | Some x => readAll bound' (seen ++ [x]) answer
              end)
  end.

Definition distanceTo (target v : list float) : float :=
  match EuclideanDistance (Some target) (Some v) with
  | Ok (d, _) => d
  | _ => zero
  end.

Fixpoint insertBy (before : float -> float -> bool) (x : nat * float)
    (l : list (nat * float)) : list (nat * float) :=
  match l with
  | [] => [x]
  | y :: l' => if before x.2 y.2 then x :: l else y :: insertBy before x l'
  end.

(** The positions of the [k] candidates that come first in the order
    [before] on their distance to the target. *)
Definition searchBy (before : float -> float -> bool)
    : knnSearchFunc float :=
  fun target k =>
    readAll 16 []
      (fun vs =>
         let ranked :=
           foldr (insertBy before) []
             (imap (fun i v => (i, distanceTo target v)) vs) in
         (fun x : nat * float => Z.of_nat x.1) <$> take (Z.to_nat k) ranked).

(** Nearest first, and farthest first. *)
Definition knnEuclid : knnSearchFunc float := searchBy ltb.
Definition kfnEuclid : knnSearchFunc float := searchBy (fun x y => ltb y x).

(** Modelled from the spec: [mathutils.VecMean], which is not among the
    sources.  "Mean(lazy sequence of Vector) -> (Vector, ok) -- ok=false if
    the sequence is empty": the coordinate-wise arithmetic mean of the
    vectors read. *)
Definition VecMean : consumer float (list float * bool) :=
  readAll 16 []
    (fun vs =>
       match vs with
       | [] => ([], false)
       | v :: vs' =>
           let total := foldl (zip_with add) v vs' in
           let count := foldl (fun n _ => add n one) zero vs in
           ((fun x => div x count) <$> total, true)
       end).

(** The run time's bound on [make] for the two-word interface values, on
    linux/amd64. *)
Definition maxcap : Z := 2 ^ 44.

(** The run time's growth of a full slice: doubling. *)
Definition growslice (oldcap newlen : nat) : nat :=
  Nat.max newlen (2 * oldcap).

Definition centroid (v : list float) (dp : list payload)
    : Centroid float payload :=
  mkCentroid v dp (length dp) knnEuclid kfnEuclid.

(** What a call that returns payloads leaves: the payloads returned, the
    collection and its capacity. *)
Definition observe (r : result (list payload * Centroid float payload))
    : result (list payload * list payload * nat) :=
  (fun x : list payload * Centroid float payload =>
     (x.1, DataPoints x.2, DataPoints_cap x.2)) <$> r.

Definition p1 : payload := mkPayload 1 [1%float; 0%float] false.
Definition p2 : payload := mkPayload 2 [2%float; 0%float] false.
Definition p3 : payload := mkPayload 3 [3%float; 0%float] false.
Definition e9 : payload := mkPayload 9 [9%float; 0%float] true.
Definition origin : list float := [0%float; 0%float].

End Scenario.

(** * Properties *)

(** ** The control structures *)

Lemma bind_Ok_l {A B : Type} (a : A) (f : A -> result B) : Ok a ≫= f = f a.
Proof. done. Qed.

(** A loop whose body keeps an invariant and lowers a variant finishes
    within the variant's worth of fuel, in a state where the invariant
    holds and the condition fails. *)
Lemma while_spec {S : Type} (I : S -> Prop) (m : S -> nat)
    (cond : S -> bool) (body : S -> result S) :
  (forall s, I s -> cond s = true ->
     exists s', body s = Ok s' /\ I s' /\ (m s' < m s)%nat) ->
  forall fuel s, I s -> (m s <= fuel)%nat ->
    exists s', while fuel cond body s = Ok s' /\ I s' /\ cond s' = false.
Proof.
  intros Hbody fuel. induction fuel as [|fuel IH]; intros s HI Hm.
  - destruct (cond s) eqn:Hc.
    + destruct (Hbody s HI Hc) as (s' & _ & _ & Hlt). lia.
    + exists s. simpl. rewrite Hc. done.
  - destruct (cond s) eqn:Hc.
    + destruct (Hbody s HI Hc) as (s' & Hb & HI' & Hlt).
      destruct (IH s' HI') as (s'' & Hw & HI'' & Hc''); [lia|].
      exists s''. simpl. rewrite Hc, Hb. done.
    + exists s. simpl. rewrite Hc. done.
Qed.

Lemma index_of_nat {A : Type} (s : list A) (i : nat) (a : A) :
  s !! i = Some a -> index s (Z.of_nat i) = Ok a.
Proof.
  intros Hi. unfold index. pose proof (lookup_lt_Some _ _ _ Hi).
  rewrite Nat2Z.id, Hi.
  replace (0 <=? Z.of_nat i) with true by (symmetry; apply Z.leb_le; lia).
  replace (Z.of_nat i <? Z.of_nat (length s)) with true
    by (symmetry; apply Z.ltb_lt; lia).
  done.
Qed.

Lemma index_Ok {A : Type} (s : list A) (i : Z) (a : A) :
  index s i = Ok a <-> 0 <= i /\ s !! Z.to_nat i = Some a.
Proof.
  unfold index. split.
  - destruct (0 <=? i) eqn:H0; [|done]. destruct (i <? _); [|done].
    simpl. destruct (s !! Z.to_nat i); [|done].
    intros; simplify_eq. split; [by apply Z.leb_le|done].
  - intros [H0 Hi]. pose proof (lookup_lt_Some _ _ _ Hi).
    rewrite Hi.
    replace (0 <=? i) with true by (symmetry; apply Z.leb_le; lia).
    replace (i <? Z.of_nat (length s)) with true
      by (symmetry; apply Z.ltb_lt; lia).
    done.
Qed.

Lemma index_Panic {A : Type} (s : list A) (i : Z) :
  ~ (0 <= i < Z.of_nat (length s)) -> index s i = Panic.
Proof.
  intros Hout. unfold index.
  destruct (Z.leb_spec 0 i), (Z.ltb_spec i (Z.of_nat (length s))); simpl;
    try done. lia.
Qed.

Section KmeansFacts.
Context {float64 P : Type} `{PayloadContainer float64 P}.
Variable maxcap : Z.

Implicit Types (c : Centroid float64 P) (p : P) (dp : list P).

Lemma make_Ok (n : Z) :
  0 <= n <= maxcap -> make (P := P) maxcap n = Ok ([], Z.to_nat n).
Proof.
  intros Hn. unfold make.
  replace (0 <=? n) with true by (symmetry; apply Z.leb_le; lia).
  by replace (n <=? maxcap) with true by (symmetry; apply Z.leb_le; lia).
Qed.

Lemma make_Panic (n : Z) :
  ~ (0 <= n <= maxcap) -> make (P := P) maxcap n = Panic.
Proof.
  intros Hn. unfold make.
  destruct (Z.leb_spec 0 n), (Z.leb_spec n maxcap); simpl; try done. lia.
Qed.

Lemma make_cases (n : Z) :
  (0 <= n <= maxcap /\ make (P := P) maxcap n = Ok ([], Z.to_nat n)) \/
  (~ (0 <= n <= maxcap) /\ make (P := P) maxcap n = Panic).
Proof.
  destruct (decide (0 <= n <= maxcap)) as [Hn|Hn].
  - left. split; [done|by apply make_Ok].
  - right. split; [done|by apply make_Panic].
Qed.

Lemma set_DataPoints_id c : set_DataPoints c (DataPoints c) (DataPoints_cap c) = c.
Proof. by destruct c. Qed.

Lemma rmPayload_of_nat c (i : nat) :
  (i < length (DataPoints c))%nat ->
  rmPayload c (Z.of_nat i)
  = Ok (set_DataPoints c (delete i (DataPoints c)) (DataPoints_cap c)).
Proof.
  intros Hi. unfold rmPayload.
  replace (0 <=? Z.of_nat i) with true by (symmetry; apply Z.leb_le; lia).
  replace (Z.of_nat i + 1 <=? Z.of_nat (length (DataPoints c))) with true
    by (symmetry; apply Z.leb_le; lia).
  simpl. rewrite delete_take_drop.
  replace (Z.to_nat (Z.of_nat i + 1)) with (Datatypes.S i) by lia.
  by rewrite Nat2Z.id.
Qed.

Lemma rmPayload_Ok c (i : Z) c' :
  rmPayload c i = Ok c' <->
  0 <= i < Z.of_nat (length (DataPoints c)) /\
  c' = set_DataPoints c (delete (Z.to_nat i) (DataPoints c)) (DataPoints_cap c).
Proof.
  split.
  - unfold rmPayload. destruct (0 <=? i) eqn:H0; [|done].
    destruct (i + 1 <=? _) eqn:H1; [|done]. simpl.
    apply Z.leb_le in H0, H1. intros; simplify_eq. split; [lia|].
    rewrite delete_take_drop. by replace (Z.to_nat (i + 1)) with (Datatypes.S (Z.to_nat i)) by lia.
  - intros [Hi ->]. rewrite <- (Z2Nat.id i) at 1 by lia.
    apply rmPayload_of_nat. lia.
Qed.

Lemma filter_live_snoc dp p :
  filter live (dp ++ [p]) = if Expired p then filter live dp else filter live dp ++ [p].
Proof.
  rewrite filter_app. unfold live at 2.
  destruct (Expired p) eqn:He.
  - rewrite filter_cons_False, filter_nil, app_nil_r by (rewrite He; done). done.
  - rewrite filter_cons_True, filter_nil by done. done.
Qed.

Lemma length_filter_live dp :
  length dp
  = (length (filter live dp) + length (filter (fun p => Expired p = true) dp))%nat.
Proof.
  induction dp as [|p dp IH]; [done|].
  destruct (Expired p) eqn:He.
  - rewrite (filter_cons_False live), filter_cons_True by (unfold live; congruence).
    simpl. lia.
  - rewrite (filter_cons_True live), filter_cons_False by (unfold live; congruence).
    simpl. lia.
Qed.

(** *** The payload generator *)

Lemma filter_live_expired dp : Forall expired dp -> filter live dp = [].
Proof.
  induction 1 as [|p dp Hp _ IH]; [done|].
  rewrite filter_cons_False; [done|]. unfold live, expired in *. congruence.
Qed.

(** One call of the generator at cursor [i]: the expired payloads [es]
    that follow the cursor are removed; the payload after them, if there
    is one, is not expired, its vector is returned and the cursor moves
    behind it. *)
Lemma payloadVecGenerator_step (i : nat) c :
  (i <= length (DataPoints c))%nat ->
  exists es rest,
    DataPoints c = take i (DataPoints c) ++ es ++ rest /\
    Forall expired es /\
    match rest with
    | [] =>
        payloadVecGenerator (i, c)
        = Ok (None, (i, set_DataPoints c (take i (DataPoints c)) (DataPoints_cap c)))
    | p :: _ =>
        Expired p = false /\
        payloadVecGenerator (i, c)
        = Ok (Some (Vec p),
              (Datatypes.S i,
               set_DataPoints c (take i (DataPoints c) ++ rest) (DataPoints_cap c)))
    end.
Proof.
  intros Hi. unfold payloadVecGenerator.
  set (front := take i (DataPoints c)).
  assert (Hfront : length front = i) by (unfold front; rewrite length_take; lia).
  set (I := fun cur : Centroid float64 P =>
    exists es rest, DataPoints c = front ++ es ++ rest /\ Forall expired es /\
      cur = set_DataPoints c (front ++ rest) (DataPoints_cap c)).
  set (m := fun cur : Centroid float64 P => length (DataPoints cur)).
  match goal with |- context [while ?f ?cnd ?bdy ?s0] =>
    assert (exists s', while f cnd bdy s0 = Ok s' /\ I s' /\ cnd s' = false)
      as (c' & Hw & (es & rest & Hdp & Hes & Hc') & Hcond);
      [apply (while_spec I m)|]
  end.
  - intros cur (es & rest & Hdp & Hes & ->) Hc. simpl in Hc.
    rewrite lookup_app_r, Hfront, Nat.sub_diag in Hc by lia.
    destruct rest as [|p rest]; [done|]. simpl in Hc.
    rewrite rmPayload_of_nat by (simpl; rewrite length_app; simpl; lia).
    eexists. split; [done|]. split.
    + exists (es ++ [p]), rest. rewrite <- !app_assoc. split; [done|].
      split; [apply Forall_app; split; [done|by constructor]|].
      simpl. by rewrite <- Hfront at 1; rewrite delete_middle.
    + unfold m. simpl. rewrite <- Hfront at 1.
      rewrite delete_middle, !length_app. simpl. lia.
  - exists [], (drop i (DataPoints c)). simpl. unfold front.
    rewrite take_drop. repeat split; [done|]. by rewrite set_DataPoints_id.
  - unfold m. lia.
  - exists es, rest. split; [done|]. split; [done|].
    rewrite Hw, bind_Ok_l. subst c'. simpl in *.
    rewrite lookup_app_r, Hfront, Nat.sub_diag in Hcond by lia.
    rewrite length_app, Hfront.
    destruct rest as [|p rest]; simpl in *.
    + replace (i + 0 <=? i)%nat with true by (symmetry; apply Nat.leb_le; lia).
      by rewrite app_nil_r.
    + replace (i + Datatypes.S (length rest) <=? i)%nat with false
        by (symmetry; apply Nat.leb_gt; lia).
      split; [done|].
      replace (Z.of_nat (Datatypes.S i) - 1) with (Z.of_nat i) by lia.
      rewrite (index_of_nat _ i p); [done|].
      by rewrite lookup_app_r, Hfront, Nat.sub_diag by lia.
Qed.

Lemma evicted_refl c : evicted c 0 c.
Proof.
  unfold evicted. rewrite set_DataPoints_id.
  repeat split; try done. lia.
Qed.

(** Every consumer fed with the payload generator returns. *)
Lemma feed_payloadVecGenerator {A : Type} (prog : consumer float64 A) :
  forall (i : nat) c0 c, evicted c0 i c ->
    exists a i' c', feed payloadVecGenerator prog (i, c) = Ok (a, (i', c')) /\
      evicted c0 i' c'.
Proof.
  induction prog as [a|k IH]; intros i c0 c Hev.
  - exists a, i, c. done.
  - destruct Hev as (Hi & Hlive & Hfilter & Hsub & Hc).
    destruct (payloadVecGenerator_step i c Hi) as (es & rest & Hdp & Hes & Hstep).
    cbn [feed].
    assert (Hev' : forall j, (j <= length (take i (DataPoints c) ++ rest))%nat ->
      Forall live (take j (take i (DataPoints c) ++ rest)) ->
      evicted c0 j
        (set_DataPoints c (take i (DataPoints c) ++ rest) (DataPoints_cap c))).
    { intros j Hj Hlj. unfold evicted. simpl. split; [done|]. split; [done|].
      split; [|split].
      - rewrite <- Hfilter. rewrite Hdp at 2.
        rewrite !filter_app, (filter_live_expired es Hes). done.
      - etrans; [|exact Hsub]. rewrite Hdp at 2.
        apply sublist_app; [done|]. by apply sublist_inserts_l.
      - rewrite Hc. done. }
    destruct rest as [|p rest].
    + rewrite Hstep, bind_Ok_l. apply IH. rewrite <- (app_nil_r (take i _)).
      apply Hev'; rewrite app_nil_r; [rewrite length_take; lia|].
      by rewrite take_take, Nat.min_id.
    + destruct Hstep as [Hp Hstep]. rewrite Hstep, bind_Ok_l. apply IH.
      assert (length (take i (DataPoints c)) = i) as Hlen
        by (rewrite length_take; lia).
      apply Hev'.
      * rewrite length_app. simpl. lia.
      * replace (Datatypes.S i) with (length (take i (DataPoints c) ++ [p]))
          by (rewrite length_app; simpl; lia).
        rewrite (assoc_L (++) _ [p] rest : take i (DataPoints c) ++ p :: rest = _).
        rewrite take_app_length. apply Forall_app. split; [done|].
        by constructor.
Qed.

(** The generator hands out the vectors of the payloads that are not
    expired, in store order: what a consumer answers is what it answers on
    that list. *)
Lemma feed_payloadVecGenerator_answer {A : Type} (prog : consumer float64 A) :
  forall (i : nat) c, (i <= length (DataPoints c))%nat ->
    exists i' c', feed payloadVecGenerator prog (i, c)
      = Ok (feedList prog (Vec <$> filter live (drop i (DataPoints c))), (i', c')).
Proof.
  induction prog as [a|k IH]; intros i c Hi.
  - by exists i, c.
  - destruct (payloadVecGenerator_step i c Hi) as (es & rest & Hdp & Hes & Hstep).
    assert (Hlen : length (take i (DataPoints c)) = i) by (rewrite length_take; lia).
    assert (Hdrop : drop i (DataPoints c) = es ++ rest).
    { apply (app_inv_head (take i (DataPoints c))). by rewrite take_drop. }
    rewrite Hdrop, filter_app, (filter_live_expired es Hes). cbn [app feed].
    destruct rest as [|p rest].
    + rewrite Hstep, bind_Ok_l, filter_nil. cbn [fmap list_fmap feedList].
      destruct (IH None i (set_DataPoints c (take i (DataPoints c)) (DataPoints_cap c)))
        as (i' & c' & Hfeed); [simpl; lia|].
      simpl in Hfeed. rewrite drop_ge, filter_nil in Hfeed by lia.
      by exists i', c'.
    + destruct Hstep as [Hp Hstep]. rewrite Hstep, bind_Ok_l.
      rewrite filter_cons_True by done. cbn [fmap list_fmap feedList].
      destruct (IH (Some (Vec p)) (Datatypes.S i)
                  (set_DataPoints c (take i (DataPoints c) ++ p :: rest) (DataPoints_cap c)))
        as (i' & c' & Hfeed); [simpl; rewrite length_app; simpl; lia|].
      simpl in Hfeed.
      rewrite (assoc_L (++) _ [p] rest : take i (DataPoints c) ++ p :: rest = _) in Hfeed.
      rewrite drop_app_length' in Hfeed by (rewrite length_app; simpl; lia).
      rewrite <- app_assoc in Hfeed. by exists i', c'.
Qed.

(** *** AddPayload *)

(** C5.  [AddPayload] returns true exactly when the payload's vector has
    the length of the centroid's vector and the payload is not expired;
    then the payload is appended to the collection and the vector stays.
    In every other case it returns false and the centroid is unchanged. *)
Theorem AddPayload_accepts_iff (growslice : nat -> nat -> nat) c p :
  ((AddPayload growslice c p).1 = true <->
     length (Vec p) = length (vec c) /\ Expired p = false) /\
  ((AddPayload growslice c p).1 = true ->
     DataPoints (AddPayload growslice c p).2 = DataPoints c ++ [p] /\
     vec (AddPayload growslice c p).2 = vec c) /\
  ((AddPayload growslice c p).1 = false ->
     (AddPayload growslice c p).2 = c).
Proof.
  unfold AddPayload, append.
  destruct (Nat.eqb_spec (length (Vec p)) (length (vec c))) as [Hlen|Hlen];
    destruct (Expired p) eqn:Hexp; simpl;
    repeat split; try done; try (by intros [? ?]).
Qed.

(** *** Expire *)

Lemma Expire_filter c :
  Expire c
  = Ok (set_DataPoints c (filter live (DataPoints c)) (DataPoints_cap c)).
Proof.
  unfold Expire.
  set (I := fun s : nat * Centroid float64 P =>
    exists pre rest, DataPoints c = pre ++ rest /\
      s.2 = set_DataPoints c (filter live pre ++ rest) (DataPoints_cap c) /\
      s.1 = length (filter live pre)).
  set (m := fun s : nat * Centroid float64 P => (length (DataPoints s.2) - s.1)%nat).
  match goal with |- context [while ?f ?cnd ?bdy ?s0] =>
    assert (exists s', while f cnd bdy s0 = Ok s' /\ I s' /\ cnd s' = false)
      as ([i c'] & Hw & (pre & rest & Hdp & Hc' & Hi) & Hcond);
      [apply (while_spec I m)|]
  end.
  - intros [i cur] (pre & rest & Hdp & Hcur & Hi) Hlt. simpl in *. subst cur i.
    apply Nat.ltb_lt in Hlt. simpl in Hlt. rewrite length_app in Hlt.
    destruct rest as [|p rest]; [simpl in Hlt; lia|].
    assert (Hat : (filter live pre ++ p :: rest) !! length (filter live pre) = Some p)
      by (rewrite lookup_app_r, Nat.sub_diag by lia; done).
    simpl. rewrite (index_of_nat _ _ _ Hat), bind_Ok_l.
    destruct (Expired p) eqn:He.
    + rewrite rmPayload_of_nat by (simpl; rewrite length_app; simpl; lia).
      eexists. split; [done|]. split.
      * exists (pre ++ [p]), rest. rewrite filter_live_snoc, He, <- app_assoc.
        split; [done|]. split; [|done]. simpl.
        by rewrite delete_middle.
      * unfold m. simpl. rewrite delete_middle, !length_app. simpl. lia.
    + eexists. split; [done|]. split.
      * exists (pre ++ [p]), rest. rewrite filter_live_snoc, He, <- !app_assoc.
        simpl. split; [done|]. split; [done|]. rewrite length_app. simpl. lia.
      * unfold m. simpl. rewrite !length_app. simpl. lia.
  - exists [], (DataPoints c). simpl. by rewrite set_DataPoints_id.
  - unfold m. simpl. lia.
  - rewrite Hw. simpl in *. subst. apply Nat.ltb_ge in Hcond. simpl in Hcond.
    rewrite length_app in Hcond.
    assert (rest = []) as -> by (destruct rest; [done|simpl in Hcond; lia]).
    rewrite !app_nil_r in *. by rewrite Hdp.
Qed.

(** C7.  [Expire] returns, after it no payload of the collection is
    expired, the payloads left are the ones that were not expired, in
    their order, and the capacity of the backing store is what it was. *)
Theorem Expire_sweeps c :
  exists c', Expire c = Ok c' /\
    (forall p, p ∈ DataPoints c' -> Expired p = false) /\
    DataPoints c' = filter live (DataPoints c) /\
    DataPoints_cap c' = DataPoints_cap c /\
    vec c' = vec c.
Proof.
  eexists. split; [apply Expire_filter|]. simpl. repeat split.
  intros p Hp. by apply list_elem_of_filter in Hp as [? _].
Qed.

(** *** MemTrim *)

Lemma MemTrim_filter (growslice : nat -> nat -> nat) c :
  MemTrim growslice c
  = Ok (set_DataPoints c (filter live (DataPoints c)) (length (DataPoints c))).
Proof.
  unfold MemTrim.
  match goal with |- context [forRange ?bdy _ _] => set (body := bdy) end.
  assert (Hloop : forall rest pre, DataPoints c = pre ++ rest ->
    forRange body (seq (length pre) (length rest))
      (filter live pre, length (DataPoints c))
    = Ok (filter live (DataPoints c), length (DataPoints c))).
  { induction rest as [|p rest IH]; intros pre Hdp.
    - rewrite app_nil_r in Hdp. by rewrite Hdp.
    - assert (Hat : DataPoints c !! length pre = Some p)
        by (rewrite Hdp, lookup_app_r, Nat.sub_diag by lia; done).
      cbn [length seq forRange]. unfold body. cbv beta iota.
      rewrite (index_of_nat _ _ _ Hat), bind_Ok_l.
      specialize (IH (pre ++ [p])). rewrite length_app in IH. simpl in IH.
      rewrite Nat.add_1_r, filter_live_snoc, <- app_assoc in IH.
      destruct (Expired p) eqn:He; simpl.
      + by apply IH.
      + unfold append.
        assert (length (filter live pre) < length (DataPoints c))%nat as Hlt.
        { pose proof (length_filter live pre). rewrite Hdp, length_app. simpl. lia. }
        apply Nat.ltb_lt in Hlt. rewrite Hlt. by apply IH. }
  specialize (Hloop (DataPoints c) [] eq_refl). simpl in Hloop.
  rewrite filter_nil in Hloop. by rewrite Hloop.
Qed.

(** *** DrainUnordered *)

Lemma DrainUnordered_front c (n : Z) :
  0 <= n <= maxcap ->
  exists pre rest,
    DataPoints c = pre ++ rest /\
    DrainUnordered maxcap c n
    = Ok (filter live pre, set_DataPoints c rest (DataPoints_cap c)) /\
    filter live pre = take (Z.to_nat n) (filter live (DataPoints c)).
Proof.
  intros Hn. unfold DrainUnordered.
  rewrite make_Ok, bind_Ok_l by done. cbv beta iota.
  set (I := fun s : list P * Centroid float64 P =>
    exists pre rest, DataPoints c = pre ++ rest /\
      s.2 = set_DataPoints c rest (DataPoints_cap c) /\
      s.1 = filter live pre /\ Z.of_nat (length s.1) <= n).
  set (m := fun s : list P * Centroid float64 P => length (DataPoints s.2)).
  match goal with |- context [while ?f ?cnd ?bdy ?s0] =>
    assert (exists s', while f cnd bdy s0 = Ok s' /\ I s' /\ cnd s' = false)
      as ([res c'] & Hw & (pre & rest & Hdp & Hc' & Hres & Hle) & Hcond);
      [apply (while_spec I m)|]
  end.
  - intros [res cur] (pre & rest & Hdp & Hcur & Hres & Hle) Hc.
    simpl in *. subst cur res. simpl in Hc.
    apply andb_true_iff in Hc as [Hne Hlt]. apply Z.ltb_lt in Hlt.
    destruct rest as [|p rest]; [done|].
    change (index (p :: rest) 0) with (index (p :: rest) (Z.of_nat 0)).
    rewrite (index_of_nat _ 0%nat p), bind_Ok_l by done.
    change 0 with (Z.of_nat 0). rewrite rmPayload_of_nat by (simpl; lia).
    simpl. eexists. split; [done|]. split; [|unfold m; simpl; lia].
    exists (pre ++ [p]), rest. rewrite <- app_assoc. simpl.
    split; [done|]. split; [done|]. rewrite filter_live_snoc.
    destruct (Expired p); simpl; [done|].
    split; [done|]. rewrite length_app. simpl. lia.
  - exists [], (DataPoints c). simpl. rewrite set_DataPoints_id.
    repeat split; try done; lia.
  - unfold m. simpl. lia.
  - simpl in *. subst res c'. exists pre, rest. rewrite Hw.
    split; [done|]. split; [done|].
    rewrite Hdp, filter_app. simpl in Hcond.
    apply andb_false_iff in Hcond as [Hnil|Hfull].
    + apply negb_false_iff, Nat.eqb_eq in Hnil.
      assert (rest = []) as -> by (destruct rest; [done|simpl in Hnil; lia]).
      rewrite filter_nil, app_nil_r, take_ge by lia. done.
    + apply Z.ltb_ge in Hfull.
      replace (Z.to_nat n) with (length (filter live pre)) by lia.
      by rewrite take_app_length.
Qed.

(** C4, as amended.  For [n >= 0] within the capacity [make] grants,
    [DrainUnordered(n)] returns the first
    [n] non-expired payloads in store order (all of them when there are
    fewer), so none of them is expired and there are at most [n]; what it
    takes off the front of the collection is those payloads and the
    expired ones met on the way, so [LenDP] drops by the length of the
    result plus the number of expired payloads discarded. *)
Theorem DrainUnordered_lengths c (n : Z) :
  0 <= n <= maxcap ->
  exists res c' pre,
    DrainUnordered maxcap c n = Ok (res, c') /\
    (forall p, p ∈ res -> Expired p = false) /\
    res = take (Z.to_nat n) (filter live (DataPoints c)) /\
    Z.of_nat (length res) <= n /\
    (Z.of_nat (length res) < n ->
       length res = length (filter live (DataPoints c))) /\
    DataPoints c = pre ++ DataPoints c' /\
    res = filter live pre /\
    LenDP c'
    = LenDP c - Z.of_nat (length res)
      - Z.of_nat (length (filter (fun p => Expired p = true) pre)).
Proof.
  intros Hn. destruct (DrainUnordered_front c n Hn) as (pre & rest & Hdp & Hrun & Htake).
  exists (filter live pre), (set_DataPoints c rest (DataPoints_cap c)), pre.
  split; [done|]. split.
  { intros p Hp. by apply list_elem_of_filter in Hp as [? _]. }
  assert (length (filter live pre)
          = Z.to_nat n `min` length (filter live (DataPoints c)))%nat as Hlen
    by (rewrite Htake at 1; apply length_take).
  split; [done|]. split; [lia|]. split; [lia|]. split; [done|]. split; [done|].
  unfold LenDP. simpl. rewrite Hdp, length_app, (length_filter_live pre). lia.
Qed.

(** *** MoveVector *)

(** C6.  [MoveVector] returns the flag of the mean computation, run on the
    vectors of the payloads that are not expired; when the flag is false
    the vector is unchanged, when it is true the vector is the computed
    mean.  A mean that reports failure on the empty sequence reports it
    when no payload is live, so then [MoveVector] returns false and leaves
    the vector. *)
Theorem MoveVector_follows_mean
    (VecMean : consumer float64 (list float64 * bool)) c :
  exists mean ok c',
    MoveVector VecMean c = Ok (ok, c') /\
    (mean, ok) = feedList VecMean (Vec <$> filter live (DataPoints c)) /\
    (exists i c1,
       feed payloadVecGenerator VecMean (0%nat, c) = Ok ((mean, ok), (i, c1)) /\
       evicted c i c1 /\ DataPoints c' = DataPoints c1) /\
    vec c' = (if ok then mean else vec c) /\
    ((feedList VecMean []).2 = false ->
     (forall p, p ∈ DataPoints c -> Expired p = true) ->
     ok = false /\ vec c' = vec c).
Proof.
  destruct (feed_payloadVecGenerator VecMean 0 c c (evicted_refl c))
    as ([mean ok] & i & c1 & Hfeed & Hev).
  destruct (feed_payloadVecGenerator_answer VecMean 0 c) as (i' & c1' & Hans); [lia|].
  rewrite Hfeed, drop_0 in Hans. injection Hans as Hans _ _.
  assert (Hvec : vec c1 = vec c) by (destruct Hev as (_ & _ & _ & _ & ->); done).
  exists mean, ok, (if ok then set_vec c1 mean else c1).
  split; [|split; [done|split; [|split]]].
  - unfold MoveVector. rewrite Hfeed, bind_Ok_l. by destruct ok.
  - exists i, c1. by destruct ok.
  - by destruct ok.
  - intros Hempty Hall.
    rewrite filter_live_expired in Hans by (apply Forall_forall; exact Hall).
    simpl in Hans. rewrite <- Hans in Hempty. simpl in Hempty. subst ok. done.
Qed.

(** *** The two passes over the index list *)

Lemma collect_lookup c (indexes : list Z) :
  Forall (fun j => 0 <= j < LenDP c) indexes ->
  exists res, collect c indexes = Ok res /\
    Forall2 (fun j p => DataPoints c !! Z.to_nat j = Some p) indexes res.
Proof.
  unfold collect, LenDP.
  assert (Hgen : forall acc, Forall (fun j => 0 <= j < Z.of_nat (length (DataPoints c))) indexes ->
    exists res,
      forRange (fun res i => p ← index (DataPoints c) i; Ok (res ++ [p])) indexes acc
      = Ok (acc ++ res) /\
      Forall2 (fun j p => DataPoints c !! Z.to_nat j = Some p) indexes res).
  { induction indexes as [|j indexes IH]; intros acc Hall.
    - exists []. by rewrite app_nil_r.
    - apply Forall_cons in Hall as [Hj Hall].
      destruct (lookup_lt_is_Some_2 (DataPoints c) (Z.to_nat j)) as [p Hp]; [lia|].
      destruct (IH (acc ++ [p]) Hall) as (res & Hres & Hlk).
      exists (p :: res). cbn [forRange].
      rewrite (proj2 (index_Ok _ _ _) (conj (proj1 Hj) Hp)), !bind_Ok_l, Hres.
      rewrite <- app_assoc. split; [done|]. by constructor. }
  intros Hall. destruct (Hgen [] Hall) as (res & Hres & Hlk). by exists res.
Qed.

Lemma descending_cons (j : Z) (l : list Z) :
  descending (j :: l) = true -> descending l = true /\ Forall (fun j' => j' < j) l.
Proof.
  revert j. induction l as [|j' l IH]; intros j Hd; [done|].
  cbn [descending] in Hd. apply andb_true_iff in Hd as [Hlt Hd].
  apply Z.ltb_lt in Hlt. split; [done|]. constructor; [done|].
  destruct (IH j' Hd) as [_ Hall]. eapply Forall_impl; [exact Hall|].
  simpl. intros. lia.
Qed.

Lemma Forall2_lookup_delete dp (j : Z) (indexes : list Z) (res : list P) :
  Forall (fun j' => 0 <= j' < j) indexes ->
  Forall2 (fun j' p => dp !! Z.to_nat j' = Some p) indexes res ->
  Forall2 (fun j' p => delete (Z.to_nat j) dp !! Z.to_nat j' = Some p) indexes res.
Proof.
  intros Hall Hlk. induction Hlk as [|j' p indexes res Hp _ IH]; [constructor|].
  apply Forall_cons in Hall as [Hj' Hall]. constructor; [|by apply IH].
  rewrite list_lookup_delete_lt by lia. done.
Qed.

(** Removing strictly decreasing positions one after the other removes the
    payloads that stood at those positions. *)
Lemma drain_descending (indexes : list Z) :
  forall c res,
    descending indexes = true ->
    Forall (fun j => 0 <= j < LenDP c) indexes ->
    Forall2 (fun j p => DataPoints c !! Z.to_nat j = Some p) indexes res ->
    exists dp',
      drain c indexes = Ok (set_DataPoints c dp' (DataPoints_cap c)) /\
      DataPoints c ≡ₚ res ++ dp' /\
      dp' `sublist_of` DataPoints c.
Proof.
  unfold drain, LenDP.
  induction indexes as [|j indexes IH]; intros c res Hd Hall Hlk.
  - apply Forall2_nil_inv_l in Hlk as ->. exists (DataPoints c).
    simpl. by rewrite set_DataPoints_id.
  - apply Forall2_cons_inv_l in Hlk as (p & res' & Hp & Hlk & ->).
    apply Forall_cons in Hall as [Hj Hall].
    apply descending_cons in Hd as [Hd Hbelow].
    set (c1 := set_DataPoints c (delete (Z.to_nat j) (DataPoints c)) (DataPoints_cap c)).
    assert (Hrm : rmPayload c j = Ok c1) by (apply rmPayload_Ok; done).
    assert (Hlen1 : length (DataPoints c1) = (length (DataPoints c) - 1)%nat).
    { simpl. apply length_delete. by eexists. }
    destruct (IH c1 res' Hd) as (dp' & Hdrain & Hperm & Hsub).
    + rewrite Hlen1. rewrite Forall_forall in Hall, Hbelow.
      apply Forall_forall. intros j' Hj'.
      specialize (Hall j' Hj'). specialize (Hbelow j' Hj'). lia.
    + simpl. apply Forall2_lookup_delete; [|done].
      rewrite Forall_forall in Hall, Hbelow.
      apply Forall_forall. intros j' Hj'.
      specialize (Hall j' Hj'). specialize (Hbelow j' Hj'). lia.
    + exists dp'. cbn [forRange]. rewrite Hrm, bind_Ok_l, Hdrain.
      split; [done|]. split.
      * rewrite (delete_Permutation _ _ _ Hp). simpl. by rewrite <- Hperm.
      * etrans; [exact Hsub|]. simpl. apply sublist_delete.
Qed.

(** The first pass either reads every index, or panics at the first index
    out of range. *)
Lemma collect_cases c (indexes : list Z) :
  (Forall (fun j => 0 <= j < LenDP c) indexes /\
   exists res, collect c indexes = Ok res /\
     Forall2 (fun j p => DataPoints c !! Z.to_nat j = Some p) indexes res) \/
  (~ Forall (fun j => 0 <= j < LenDP c) indexes /\ collect c indexes = Panic).
Proof.
  destruct (decide (Forall (fun j => 0 <= j < LenDP c) indexes)) as [Hall|Hnot].
  - left. split; [done|]. by apply collect_lookup.
  - right. split; [done|]. unfold collect.
    cut (forall acc : list P,
      forRange (fun res i => p ← index (DataPoints c) i; Ok (res ++ [p]))
        indexes acc = Panic); [done|].
    induction indexes as [|j indexes IH]; intros acc.
    + by destruct Hnot.
    + cbn [forRange].
      destruct (decide (0 <= j < LenDP c)) as [Hj|Hj].
      * destruct (lookup_lt_is_Some_2 (DataPoints c) (Z.to_nat j)) as [p Hp];
          [unfold LenDP in Hj; lia|].
        rewrite (proj2 (index_Ok _ _ _) (conj (proj1 Hj) Hp)), !bind_Ok_l.
        apply IH. intros Hall. apply Hnot. by constructor.
      * by rewrite index_Panic.
Qed.

(** The second pass removes one payload for each index, or panics. *)
Lemma drain_cases (indexes : list Z) :
  forall c,
    drain c indexes = Panic \/
    exists dp',
      drain c indexes = Ok (set_DataPoints c dp' (DataPoints_cap c)) /\
      dp' `sublist_of` DataPoints c /\
      (length dp' + length indexes = length (DataPoints c))%nat.
Proof.
  unfold drain. induction indexes as [|j indexes IH]; intros c.
  - right. exists (DataPoints c). simpl. rewrite set_DataPoints_id.
    split; [done|]. split; [done|]. lia.
  - cbn [forRange]. destruct (rmPayload c j) as [c1| |] eqn:Hrm.
    + apply rmPayload_Ok in Hrm as [Hj ->]. rewrite bind_Ok_l.
      destruct (IH (set_DataPoints c (delete (Z.to_nat j) (DataPoints c))
                      (DataPoints_cap c))) as [Hpanic|(dp' & Hdrain & Hsub & Hlen)].
      * by left.
      * right. exists dp'. rewrite Hdrain. simpl in *. split; [done|]. split.
        -- etrans; [exact Hsub|]. apply sublist_delete.
        -- rewrite length_delete in Hlen
             by (apply lookup_lt_is_Some_2; lia). lia.
    + by left.
    + unfold rmPayload in Hrm. by destruct (_ && _).
Qed.

Lemma filter_live_all dp : Forall live dp -> filter live dp = dp.
Proof.
  induction 1 as [|p dp Hp _ IH]; [done|].
  by rewrite filter_cons_True, IH.
Qed.

Lemma evicted_none_expired c (i : nat) c1 :
  evicted c i c1 -> Forall live (DataPoints c) -> DataPoints c1 = DataPoints c.
Proof.
  intros (_ & _ & Hfilter & Hsub & _) Hall.
  assert (Forall live (DataPoints c1)) as Hall1.
  { clear Hfilter. induction Hsub as [|p l1 l2 _ IH|p l1 l2 _ IH]; [done| |].
    - apply Forall_cons in Hall as [? ?]. constructor; [done|by apply IH].
    - apply Forall_cons in Hall as [? ?]. by apply IH. }
  by rewrite <- (filter_live_all _ Hall1), <- (filter_live_all _ Hall).
Qed.

(** *** DrainOrdered and KNNLookup *)

(** [make] with a capacity that is negative or beyond what it grants panics
    before anything is touched. *)
Lemma make_refused_panics c (v : list float64) (n : Z) (dr : bool) :
  ~ (0 <= n <= maxcap) ->
  DrainUnordered maxcap c n = Panic /\ DrainOrdered maxcap c n = Panic /\
  KNNLookup maxcap c v n dr = Panic.
Proof.
  intros Hn. unfold DrainUnordered, DrainOrdered, KNNLookup.
  by rewrite make_Panic.
Qed.

(** C2, as amended.  Let the farthest-neighbour strategy, run by
    [DrainOrdered(n)] ([n >= 0] and within the capacity [make] grants)
    against the payload generator, answer the
    index list [idx], the generator having left the collection [c1] (the
    collection without the expired payloads it met).  If [idx] is strictly
    decreasing and within [c1], [DrainOrdered] returns the payloads of [c1]
    at [idx] and removes exactly those from [c1]: [c1] is a permutation of
    the result followed by what stays, what stays keeps its order, and
    [LenDP] is that of [c1] minus the length of the result.  With no
    expired payload, [c1] is the collection before the call, so with 3
    payloads and 2 indices exactly 1 payload stays. *)
Theorem DrainOrdered_descending c (n : Z) (idx : list Z) (i : nat) c1 :
  0 <= n <= maxcap ->
  feed payloadVecGenerator (kfnSearch c (vec c) n) (0%nat, c) = Ok (idx, (i, c1)) ->
  descending idx = true ->
  Forall (fun j => 0 <= j < LenDP c1) idx ->
  exists res c2,
    DrainOrdered maxcap c n = Ok (res, c2) /\
    Forall2 (fun j p => DataPoints c1 !! Z.to_nat j = Some p) idx res /\
    DataPoints c1 ≡ₚ res ++ DataPoints c2 /\
    DataPoints c2 `sublist_of` DataPoints c1 /\
    evicted c i c1 /\
    idx = feedList (kfnSearch c (vec c) n) (Vec <$> filter live (DataPoints c)) /\
    LenDP c2 = LenDP c1 - Z.of_nat (length res) /\
    ((forall p, p ∈ DataPoints c -> Expired p = false) ->
     DataPoints c1 = DataPoints c).
Proof.
  intros Hn Hfeed Hd Hrange.
  destruct (feed_payloadVecGenerator (kfnSearch c (vec c) n) 0 c c (evicted_refl c))
    as (idx' & i' & c1' & Hfeed' & Hev).
  rewrite Hfeed in Hfeed'. injection Hfeed' as <- <- <-.
  destruct (feed_payloadVecGenerator_answer (kfnSearch c (vec c) n) 0 c)
    as (i'' & c1'' & Hidx); [lia|].
  rewrite Hfeed, drop_0 in Hidx. injection Hidx as Hidx _ _.
  destruct (collect_lookup c1 idx Hrange) as (res & Hres & Hlk).
  destruct (drain_descending idx c1 res Hd Hrange Hlk) as (dp' & Hdrain & Hperm & Hsub).
  exists res, (set_DataPoints c1 dp' (DataPoints_cap c1)).
  refine (conj _ (conj Hlk (conj Hperm (conj Hsub (conj Hev (conj Hidx (conj _ _))))))).
  - unfold DrainOrdered. rewrite make_Ok, bind_Ok_l by done.
    by rewrite Hfeed, bind_Ok_l, Hres, bind_Ok_l, Hdrain, bind_Ok_l.
  - unfold LenDP. simpl. apply Permutation_length in Hperm.
    rewrite Hperm, length_app. lia.
  - intros Hall. eapply evicted_none_expired; [done|].
    apply Forall_forall. exact Hall.
Qed.

(** C3, as amended.  [KNNLookup(v, k, true)] runs the nearest-neighbour
    strategy against the payload generator, which leaves the collection
    [c1]: the collection without the expired payloads it met.  Whenever the
    call returns, it returns one payload for each index of the strategy's
    answer and [LenDP] after the call is [LenDP] of [c1] minus the length of
    the result, which is [LenDP] before the call minus the length of the
    result minus the number of expired payloads the generator removed (none
    when no payload is expired).  When [k] is not negative and within the
    capacity [make] grants, and the index list is strictly decreasing and
    within [c1], the call returns the payloads of [c1] at those indices and
    removes exactly those from [c1]. *)
Theorem KNNLookup_drain_descending c (v : list float64) (k : Z)
    (idx : list Z) (i : nat) c1 :
  feed payloadVecGenerator (knnSearch c v k) (0%nat, c) = Ok (idx, (i, c1)) ->
  evicted c i c1 /\
  idx = feedList (knnSearch c v k) (Vec <$> filter live (DataPoints c)) /\
  LenDP c - LenDP c1
  = Z.of_nat (length (filter (fun p => Expired p = true) (DataPoints c)))
    - Z.of_nat (length (filter (fun p => Expired p = true) (DataPoints c1))) /\
  0 <= LenDP c - LenDP c1 /\
  ((forall p, p ∈ DataPoints c -> Expired p = false) ->
   DataPoints c1 = DataPoints c) /\
  (forall res c2,
     KNNLookup maxcap c v k true = Ok (res, c2) ->
     length res = length idx /\
     LenDP c2 = LenDP c1 - Z.of_nat (length res) /\
     LenDP c2 = LenDP c - Z.of_nat (length res) - (LenDP c - LenDP c1)) /\
  (0 <= k <= maxcap ->
   descending idx = true ->
   Forall (fun j => 0 <= j < LenDP c1) idx ->
   exists res c2,
     KNNLookup maxcap c v k true = Ok (res, c2) /\
     Forall2 (fun j p => DataPoints c1 !! Z.to_nat j = Some p) idx res /\
     DataPoints c1 ≡ₚ res ++ DataPoints c2 /\
     DataPoints c2 `sublist_of` DataPoints c1).
Proof.
  intros Hfeed.
  destruct (feed_payloadVecGenerator (knnSearch c v k) 0 c c (evicted_refl c))
    as (idx' & i' & c1' & Hfeed' & Hev).
  rewrite Hfeed in Hfeed'. injection Hfeed' as <- <- <-.
  destruct (feed_payloadVecGenerator_answer (knnSearch c v k) 0 c)
    as (i'' & c1'' & Hidx); [lia|].
  rewrite Hfeed, drop_0 in Hidx. injection Hidx as Hidx _ _.
  split; [done|]. split; [done|].
  pose proof Hev as (_ & _ & Hfilter & Hsub & _).
  split; [|split; [|split; [|split]]].
  - unfold LenDP.
    rewrite (length_filter_live (DataPoints c)), (length_filter_live (DataPoints c1)).
    rewrite Hfilter. lia.
  - apply sublist_length in Hsub. unfold LenDP. lia.
  - intros Hall. eapply evicted_none_expired; [done|].
    apply Forall_forall. exact Hall.
  - intros res c2. unfold KNNLookup.
    destruct (make_cases k) as [[_ ->]|[_ ->]]; [|done].
    rewrite bind_Ok_l, Hfeed, bind_Ok_l.
    destruct (collect_cases c1 idx) as [(_ & res' & -> & Hlk)|[_ ->]]; [|done].
    rewrite bind_Ok_l.
    destruct (drain_cases idx c1) as [->|(dp' & -> & _ & Hlen)]; [done|].
    rewrite bind_Ok_l. intros [= <- <-].
    apply Forall2_length in Hlk. unfold LenDP. simpl. lia.
  - intros Hk Hd Hrange.
    destruct (collect_lookup c1 idx Hrange) as (res & Hres & Hlk).
    destruct (drain_descending idx c1 res Hd Hrange Hlk)
      as (dp' & Hdrain & Hperm & Hsub').
    exists res, (set_DataPoints c1 dp' (DataPoints_cap c1)).
    split; [|done]. unfold KNNLookup. rewrite make_Ok, bind_Ok_l by done.
    by rewrite Hfeed, bind_Ok_l, Hres, bind_Ok_l, Hdrain, bind_Ok_l.
Qed.

(** *** NewCentroid *)

Lemma insert_copy_step (zero : float64) (pre rest : list float64) (v : float64) :
  <[length pre := v]> (pre ++ replicate (Datatypes.S (length rest)) zero)
  = (pre ++ [v]) ++ replicate (length rest) zero.
Proof.
  rewrite insert_app_r_alt, Nat.sub_diag by lia. simpl.
  by rewrite <- app_assoc.
Qed.

(** With both strategies given and a capacity that [make] grants, the
    constructor allocates a new array, fills it with the caller's vector
    and leaves every other array of the store alone. *)
Lemma NewCentroid_success (zero : float64) (σ : gmap nat (list float64))
    (args : NewCentroidArgs) (knn kfn : knnSearchFunc float64) :
  KNNSearchFunc args = Some knn ->
  KFNSearchFunc args = Some kfn ->
  0 <= InitCap args <= maxcap ->
  (forall a, InitVec args = Some a -> is_Some (σ !! a)) ->
  NewCentroid (P := P) maxcap zero σ args
  = Ok (<[fresh (dom σ) := contents σ (InitVec args)]> σ,
        Some (mkCentroid (fresh (dom σ)) [] (Z.to_nat (InitCap args)) knn kfn),
        true).
Proof.
  intros Hknn Hkfn Hcap Hwf. unfold NewCentroid. rewrite Hknn, Hkfn.
  rewrite make_Ok, bind_Ok_l by done. cbv beta iota.
  set (a := fresh (dom σ)). set (src := contents σ (InitVec args)).
  assert (Ha : σ !! a = None) by (apply not_elem_of_dom, is_fresh).
  assert (Hsrc : forall dst, contents (<[a := dst]> σ) (InitVec args) = src).
  { intros dst. unfold src, contents. destruct (InitVec args) as [b|]; [|done].
    destruct (Hwf b eq_refl) as [w Hw].
    rewrite lookup_insert_ne; [done|]. intros ->. congruence. }
  match goal with |- context [forRange ?bdy _ _] => set (body := bdy) end.
  assert (Hloop : forall rest pre, src = pre ++ rest ->
    forRange body (seq (length pre) (length rest))
      (<[a := pre ++ replicate (length rest) zero]> σ)
    = Ok (<[a := src]> σ)).
  { induction rest as [|v rest IH]; intros pre Hpre.
    - simpl. rewrite !app_nil_r in *. by rewrite Hpre.
    - cbn [length seq forRange]. unfold body. cbv beta.
      rewrite Hsrc.
      assert (Hv : src !! length pre = Some v)
        by (rewrite Hpre, lookup_app_r, Nat.sub_diag by lia; done).
      rewrite (index_of_nat _ _ _ Hv), bind_Ok_l.
      assert (Hdst : forall dst, contents (<[a := dst]> σ) (Some a) = dst)
        by (intros dst; unfold contents; by rewrite lookup_insert_eq).
      rewrite !Hdst.
      assert (Hz : (pre ++ replicate (Datatypes.S (length rest)) zero) !! length pre
                   = Some zero)
        by (rewrite lookup_app_r, Nat.sub_diag by lia; done).
      rewrite (index_of_nat _ _ _ Hz), !bind_Ok_l.
      rewrite insert_insert_eq, insert_copy_step.
      specialize (IH (pre ++ [v])). rewrite length_app in IH. simpl in IH.
      rewrite Nat.add_1_r in IH. apply IH. by rewrite <- app_assoc. }
  specialize (Hloop src [] eq_refl). simpl in Hloop.
  rewrite Hloop, bind_Ok_l. done.
Qed.

(** C9.  [NewCentroid] returns no object and [ok = false] exactly when one
    of the two search functions is nil.  When it returns a centroid, the
    flag is true, the centroid's vector is an array that was not in the
    store before, it holds the elements of [InitVec], the arrays that were
    in the store are as they were, and writing to the caller's array
    afterwards does not change what the centroid's vector holds.  It does
    return a centroid when both functions are given and [InitCap] is not
    negative and within the capacity [make] grants. *)
Theorem NewCentroid_copies (zero : float64) (σ : gmap nat (list float64))
    (args : NewCentroidArgs) :
  (forall a, InitVec args = Some a -> is_Some (σ !! a)) ->
  ((exists σ', NewCentroid (P := P) maxcap zero σ args = Ok (σ', None, false)) <->
     KNNSearchFunc args = None \/ KFNSearchFunc args = None) /\
  (forall σ' (o : option (CentroidOf float64 P nat)) (ok : bool),
     NewCentroid maxcap zero σ args = Ok (σ', o, ok) ->
     match o with
     | None => ok = false /\ σ' = σ
     | Some cr =>
         ok = true /\
         σ !! vec cr = None /\
         (forall a, a ≠ vec cr -> σ' !! a = σ !! a) /\
         vec (load σ' cr) = contents σ (InitVec args) /\
         (forall a (w : list float64), InitVec args = Some a ->
            vec (load (<[a := w]> σ') cr) = contents σ (InitVec args)) /\
         DataPoints cr = [] /\
         KNNSearchFunc args = Some (knnSearch cr) /\
         KFNSearchFunc args = Some (kfnSearch cr)
     end) /\
  (is_Some (KNNSearchFunc args) -> is_Some (KFNSearchFunc args) ->
   0 <= InitCap args <= maxcap ->
   exists σ' cr, NewCentroid (P := P) maxcap zero σ args = Ok (σ', Some cr, true)).
Proof.
  intros Hwf.
  assert (Hfresh : σ !! fresh (dom σ) = None) by (apply not_elem_of_dom, is_fresh).
  destruct (KNNSearchFunc args) as [knn|] eqn:Hknn;
    [destruct (KFNSearchFunc args) as [kfn|] eqn:Hkfn|].
  - destruct (decide (0 <= InitCap args <= maxcap)) as [Hcap|Hout].
    2:{ assert (NewCentroid (P := P) maxcap zero σ args = Panic) as Hpanic.
        { unfold NewCentroid. rewrite Hknn, Hkfn. by rewrite make_Panic. }
        rewrite Hpanic. split; [|split].
        * split; [by intros [? ?]|by intros [?|?]].
        * done.
        * intros _ _ ?. done. }
    rewrite (NewCentroid_success zero σ args knn kfn Hknn Hkfn Hcap Hwf).
    split; [|split].
    + split; [by intros [? ?]|by intros [?|?]].
    + intros σ' o ok [= <- <- <-]. simpl.
      split; [done|]. split; [done|]. split.
      { intros a Ha. by rewrite lookup_insert_ne. }
      unfold load, contents. simpl. rewrite lookup_insert_eq. simpl.
      split; [done|]. split; [|done].
      intros a w Ha. destruct (Hwf a Ha) as [w' Hw'].
      rewrite lookup_insert_ne by (intros ->; congruence).
      by rewrite lookup_insert_eq.
    + intros _ _ _. by eexists _, _.
  - assert (NewCentroid (P := P) maxcap zero σ args = Ok (σ, None, false)) as Hnil
      by (unfold NewCentroid; rewrite Hknn, Hkfn; done).
    rewrite Hnil. split; [|split].
    + split; [by right|by eexists].
    + by intros σ' o ok [= <- <- <-].
    + by intros _ [? ?].
  - assert (NewCentroid (P := P) maxcap zero σ args = Ok (σ, None, false)) as Hnil
      by (unfold NewCentroid; rewrite Hknn; done).
    rewrite Hnil. split; [|split].
    + split; [by left|by eexists].
    + by intros σ' o ok [= <- <- <-].
    + by intros [? ?].
Qed.

End KmeansFacts.

(** ** Redistribution *)

Section DistributeFacts.
Context {float64 P : Type} `{PayloadContainer float64 P}.
Variable growslice : nat -> nat -> nat.
Variable maxcap : Z.

Implicit Types (c : Centroid float64 P) (p : P) (dp : list P).
Implicit Types (h : gmap nat (Centroid float64 P)).

Lemma AddPayload_accepted c p :
  length (Vec p) = length (vec c) -> Expired p = false ->
  exists cp,
    AddPayload growslice c p = (true, set_DataPoints c (DataPoints c ++ [p]) cp).
Proof.
  intros Hlen Hexp. unfold AddPayload, append. rewrite Hexp.
  replace (length (Vec p) =? length (vec c))%nat with true
    by (symmetry; by apply Nat.eqb_eq).
  simpl. by eexists.
Qed.

Lemma AddPayload_fields c p :
  vec (AddPayload growslice c p).2 = vec c /\
  knnSearch (AddPayload growslice c p).2 = knnSearch c /\
  ((AddPayload growslice c p).1 = true ->
   DataPoints (AddPayload growslice c p).2 = DataPoints c ++ [p]) /\
  ((AddPayload growslice c p).1 = false -> (AddPayload growslice c p).2 = c).
Proof.
  unfold AddPayload, append.
  destruct (negb (length (Vec p) =? length (vec c))%nat || Expired p); done.
Qed.

(** The receivers' generator hands out the receivers' vectors in order. *)
Lemma feed_receiverGenerator {A : Type} (prog : consumer float64 A) h
    (receivers : list nat) :
  Forall (fun a => is_Some (h !! a)) receivers ->
  forall j : nat, exists j' : nat,
    feed (receiverGenerator h receivers) prog j
    = Ok (feedList prog (drop j (recvVecs h receivers)), j').
Proof.
  intros Halloc. induction prog as [a|k IH]; intros j.
  - by exists j.
  - cbn [feed].
    assert (Hlen : length (recvVecs h receivers) = length receivers)
      by (unfold recvVecs; apply length_fmap).
    destruct (Nat.leb_spec (length receivers) j) as [Hge|Hlt].
    + assert (Hstep : receiverGenerator h receivers j = Ok (None, j)).
      { unfold receiverGenerator.
        by replace (length receivers <=? j)%nat with true
          by (symmetry; by apply Nat.leb_le). }
      rewrite Hstep, bind_Ok_l, drop_ge by lia. cbn [feedList].
      destruct (IH None j) as (j' & Hfeed). rewrite drop_ge in Hfeed by lia.
      by exists j'.
    + destruct (lookup_lt_is_Some_2 receivers j Hlt) as [a Ha].
      rewrite Forall_forall in Halloc.
      destruct (Halloc a (list_elem_of_lookup_2 _ _ _ Ha)) as [r Hr].
      assert (Hstep : receiverGenerator h receivers j
                      = Ok (Some (Centroid_Vec r), Datatypes.S j)).
      { unfold receiverGenerator.
        replace (length receivers <=? j)%nat with false
          by (symmetry; by apply Nat.leb_gt).
        replace (Z.of_nat (Datatypes.S j) - 1) with (Z.of_nat j) by lia.
        rewrite (index_of_nat _ _ _ Ha), bind_Ok_l. unfold deref.
        by rewrite Hr, bind_Ok_l. }
      rewrite Hstep, bind_Ok_l.
      assert (Hv : recvVecs h receivers !! j = Some (Centroid_Vec r)).
      { unfold recvVecs. rewrite list_lookup_fmap, Ha. simpl. by rewrite Hr. }
      rewrite (drop_S _ _ _ Hv). cbn [feedList]. apply IH.
Qed.

(** Replacing a centroid of the heap exchanges its payloads. *)
Lemma payloads_insert h (a : nat) c c' :
  h !! a = Some c ->
  payloads (<[a := c']> h) ++ DataPoints c ≡ₚ DataPoints c' ++ payloads h.
Proof.
  intros Ha. unfold payloads.
  rewrite <- (map_to_list_delete h a c Ha), <- insert_delete_eq.
  rewrite map_to_list_insert by apply lookup_delete_eq.
  cbn [mbind list_bind]. simpl.
  rewrite <- !app_assoc. f_equiv. rewrite (comm (++)). done.
Qed.

Lemma payloads_append h (a : nat) c c' p :
  h !! a = Some c -> DataPoints c' = DataPoints c ++ [p] ->
  payloads (<[a := c']> h) ≡ₚ p :: payloads h.
Proof.
  intros Ha Hdp. pose proof (payloads_insert h a c c' Ha) as Hins.
  rewrite Hdp in Hins. apply (Permutation_app_inv_r (DataPoints c)).
  rewrite Hins. rewrite <- app_assoc. simpl.
  rewrite (comm (++) (DataPoints c) (p :: payloads h)). simpl.
  by rewrite (comm (++) (payloads h)).
Qed.

Lemma distributing_insert (self : nat) (receivers : list nat) c0 vecs h
    (a : nat) c c' :
  distributing self receivers c0 vecs h ->
  h !! a = Some c -> vec c' = vec c -> knnSearch c' = knnSearch c ->
  distributing self receivers c0 vecs (<[a := c']> h).
Proof.
  intros ((cs & Hself & Hvec & Hknn) & Halloc & Hvecs) Ha Hv Hk.
  split; [|split].
  - destruct (decide (self = a)) as [->|Hne].
    + exists c'. rewrite lookup_insert_eq. split; [done|].
      rewrite Hself in Ha. injection Ha as <-. by rewrite Hv, Hk.
    + exists cs. by rewrite lookup_insert_ne.
  - eapply Forall_impl; [exact Halloc|]. simpl. intros b Hb.
    apply lookup_insert_is_Some'. by right.
  - rewrite <- Hvecs. unfold recvVecs. apply list_fmap_ext. intros _ b _.
    destruct (decide (b = a)) as [->|Hne].
    + rewrite lookup_insert_eq, Ha. unfold Centroid_Vec. done.
    + by rewrite lookup_insert_ne.
Qed.

(** One payload of the drained list: it is appended to the collection of
    one centroid of the heap, and nothing else changes. *)
Lemma distributeOne_home (self : nat) (receivers : list nat) c0 vecs h p :
  distributing self receivers c0 vecs h ->
  length (Vec p) = length (vec c0) -> Expired p = false ->
  match feedList (knnSearch c0 (Vec p) 1) vecs with
  | [] => True
  | i0 :: _ => 0 <= i0 < Z.of_nat (length receivers)
  end ->
  exists h',
    distributeOne growslice self receivers h p = Ok h' /\
    payloads h' ≡ₚ p :: payloads h /\
    distributing self receivers c0 vecs h'.
Proof.
  intros Hinv Hlen Hexp Hrange.
  pose proof Hinv as ((cs & Hself & Hvec & Hknn) & Halloc & Hvecs).
  destruct (feed_receiverGenerator (knnSearch cs (Vec p) 1) h receivers Halloc 0)
    as (j' & Hfeed).
  rewrite drop_0, Hvecs, Hknn in Hfeed.
  assert (Hback : forall h1 cs1, h1 !! self = Some cs1 -> vec cs1 = vec c0 ->
    distributing self receivers c0 vecs h1 ->
    exists h', Ok (<[self := (AddPayload growslice cs1 p).2]> h1) = Ok h' /\
      payloads h' ≡ₚ p :: payloads h1 /\ distributing self receivers c0 vecs h').
  { intros h1 cs1 Hs1 Hv1 Hinv1.
    destruct (AddPayload_accepted cs1 p) as (cp & Hadd); [congruence|done|].
    eexists. split; [done|]. rewrite Hadd. simpl. split.
    - by eapply payloads_append.
    - by eapply distributing_insert. }
  unfold distributeOne, deref. rewrite Hself, bind_Ok_l, Hknn, Hfeed, bind_Ok_l.
  destruct (feedList (knnSearch c0 (Vec p) 1) vecs) as [|i0 rest].
  - rewrite bind_Ok_l, Hself, bind_Ok_l. by apply Hback.
  - destruct (lookup_lt_is_Some_2 receivers (Z.to_nat i0)) as [a Ha]; [lia|].
    rewrite (proj2 (index_Ok _ _ _) (conj (proj1 Hrange) Ha)), bind_Ok_l.
    rewrite Forall_forall in Halloc.
    destruct (Halloc a (list_elem_of_lookup_2 _ _ _ Ha)) as [r Hr].
    rewrite Hr, bind_Ok_l.
    destruct (AddPayload_fields r p) as (Hv & Hk & Hyes & Hno).
    destruct (AddPayload growslice r p) as [ok r'] eqn:Hadd. simpl in *.
    destruct ok.
    + eexists. split; [done|]. split.
      * eapply payloads_append; [done|]. by apply Hyes.
      * by eapply distributing_insert.
    + rewrite Hno, (insert_id h a r Hr), Hself, bind_Ok_l by done.
      by apply Hback.
Qed.

Lemma distribute_all (self : nat) (receivers : list nat) c0 vecs
    (data : list P) :
  forall h,
    distributing self receivers c0 vecs h ->
    Forall (fun p =>
      length (Vec p) = length (vec c0) /\ Expired p = false /\
      match feedList (knnSearch c0 (Vec p) 1) vecs with
      | [] => True
      | i0 :: _ => 0 <= i0 < Z.of_nat (length receivers)
      end) data ->
    exists h',
      forRange (distributeOne growslice self receivers) data h = Ok h' /\
      payloads h' ≡ₚ data ++ payloads h.
Proof.
  induction data as [|p data IH]; intros h Hinv Hdata.
  - by exists h.
  - apply Forall_cons in Hdata as [(Hlen & Hexp & Hrange) Hdata].
    destruct (distributeOne_home self receivers c0 vecs h p Hinv Hlen Hexp Hrange)
      as (h1 & Hone & Hperm1 & Hinv1).
    destruct (IH h1 Hinv1 Hdata) as (h' & Hall & Hperm).
    exists h'. cbn [forRange]. rewrite Hone, bind_Ok_l. split; [done|].
    rewrite Hperm, Hperm1. simpl. by rewrite Permutation_middle.
Qed.

(** X23.  When the farthest-neighbour search answers a strictly decreasing
    list of positions of payloads it was given, [DistributePayload] loses and
    duplicates nothing: the payloads held by the centroids of the heap
    afterwards are, up to their order, the payloads held before without
    the expired payloads the generator removed from the distributing
    centroid.  [n] is not negative and within the capacity [make] grants,
    the receivers are centroids of the heap, the nearest-neighbour
    search answers positions within [receivers], and the payloads of the
    distributing centroid have vectors of its vector's length. *)
Lemma DistributePayload_no_loss h (self : nat) (n : Z) (receivers : list nat)
    c (idx : list Z) (i : nat) c1 :
  receivers <> [] ->
  0 <= n <= maxcap ->
  h !! self = Some c ->
  Forall (fun a => is_Some (h !! a)) receivers ->
  Forall (fun p => length (Vec p) = length (vec c)) (DataPoints c) ->
  Forall (fun p =>
    match feedList (knnSearch c (Vec p) 1) (recvVecs h receivers) with
    | [] => True
    | i0 :: _ => 0 <= i0 < Z.of_nat (length receivers)
    end) (DataPoints c) ->
  feed payloadVecGenerator (kfnSearch c (vec c) n) (0%nat, c) = Ok (idx, (i, c1)) ->
  descending idx = true ->
  Forall (fun j => 0 <= j < Z.of_nat i) idx ->
  exists h',
    DistributePayload growslice maxcap h self n receivers = Ok h' /\
    evicted c i c1 /\
    payloads h' ≡ₚ payloads (<[self := c1]> h).
Proof.
  intros Hne Hn Hself Halloc Hlens Hknn Hfeed Hd Hyielded.
  destruct (feed_payloadVecGenerator (kfnSearch c (vec c) n) 0 c c (evicted_refl c))
    as (idx' & i' & c1' & Hfeed' & Hev).
  rewrite Hfeed in Hfeed'. injection Hfeed' as <- <- <-.
  pose proof Hev as (Hi & Hlive & Hfilter & Hsub & Hc1).
  assert (Hrange : Forall (fun j => 0 <= j < LenDP c1) idx).
  { eapply Forall_impl; [exact Hyielded|]. unfold LenDP. simpl. lia. }
  destruct (collect_lookup c1 idx Hrange) as (res & Hres & Hlk).
  destruct (drain_descending idx c1 res Hd Hrange Hlk) as (dp' & Hdrain & Hperm & Hsub').
  set (c2 := set_DataPoints c1 dp' (DataPoints_cap c1)) in *.
  assert (Hvec1 : vec c1 = vec c) by (rewrite Hc1; done).
  assert (Hknn1 : knnSearch c1 = knnSearch c) by (rewrite Hc1; done).
  assert (Hdata : Forall (fun p =>
      length (Vec p) = length (vec c) /\ Expired p = false /\
      match feedList (knnSearch c (Vec p) 1) (recvVecs h receivers) with
      | [] => True
      | i0 :: _ => 0 <= i0 < Z.of_nat (length receivers)
      end) res).
  { rewrite Forall_forall in Hlens. rewrite Forall_forall in Hknn.
    rewrite Forall_forall in Hyielded. rewrite Forall_forall in Hlive.
    apply Forall_forall. intros p Hp.
    apply (list_elem_of_lookup res p) in Hp as [m Hm].
    destruct (Forall2_lookup_r _ _ _ _ _ Hlk Hm) as (j & Hj & Hpj).
    apply list_elem_of_lookup_2 in Hj.
    assert (Hin1 : p ∈ DataPoints c1) by (by eapply list_elem_of_lookup_2).
    assert (Hin : p ∈ DataPoints c)
      by (eapply elem_of_submseteq; [exact Hin1|by apply sublist_submseteq]).
    split; [by apply Hlens|]. split; [|by apply Hknn].
    apply Hlive, elem_of_take. exists (Z.to_nat j). split; [done|].
    specialize (Hyielded j Hj). simpl in Hyielded. lia. }
  assert (Hinv : distributing self receivers c (recvVecs h receivers) (<[self := c2]> h)).
  { apply (distributing_insert self receivers c _ h self c c2); try done.
    split; [by exists c|done]. }
  destruct (distribute_all self receivers c (recvVecs h receivers) res
              (<[self := c2]> h) Hinv Hdata) as (h' & Hall & Hperm').
  exists h'. split; [|split; [done|]].
  - unfold DistributePayload.
    replace (length receivers =? 0)%nat with false
      by (symmetry; apply Nat.eqb_neq; destruct receivers; [done|simpl; lia]).
    unfold deref. rewrite Hself, bind_Ok_l. unfold DrainOrdered.
    rewrite make_Ok, bind_Ok_l by done.
    rewrite Hfeed, bind_Ok_l, Hres, bind_Ok_l. fold c2 in Hdrain.
    rewrite Hdrain, !bind_Ok_l. exact Hall.
  - rewrite Hperm'. apply (Permutation_app_inv_r (DataPoints c)).
    rewrite (payloads_insert h self c c1 Hself), Hperm.
    rewrite <- !app_assoc. f_equiv.
    rewrite (payloads_insert h self c c2 Hself). done.
Qed.

End DistributeFacts.

(** ** mathutils *)

Section MathutilsGeneric.
Context {F : Type} `{Float64Ops F}.

(** The loop of [EuclideanDistance] from position [length pre1] on, with
    the sum [r] so far: a left fold over the pairs of coordinates. *)
Lemma EuclideanDistance_loop (a1 a2 : list F) :
  forall rest1 rest2 pre1 pre2 (r : F),
    a1 = pre1 ++ rest1 -> a2 = pre2 ++ rest2 ->
    length pre1 = length pre2 -> length rest1 = length rest2 ->
    forRange
      (fun r i =>
         x ← index a1 (Z.of_nat i);
         y ← index a2 (Z.of_nat i);
         Ok (f_add r (f_sqrt (f_mul (f_sub x y) (f_sub x y)))))
      (seq (length pre1) (length rest1)) r
    = Ok (foldl sqrt_sq_step r (zip rest1 rest2)).
Proof.
  induction rest1 as [|x rest1 IH]; intros [|y rest2] pre1 pre2 r H1 H2 Hpre Hrest;
    try discriminate.
  - done.
  - cbn [length seq forRange].
    assert (Hx : a1 !! length pre1 = Some x)
      by (rewrite H1, lookup_app_r, Nat.sub_diag by lia; done).
    assert (Hy : a2 !! length pre1 = Some y)
      by (rewrite H2, Hpre, lookup_app_r, Nat.sub_diag by lia; done).
    rewrite (index_of_nat _ _ _ Hx), bind_Ok_l.
    rewrite (index_of_nat _ _ _ Hy), !bind_Ok_l.
    specialize (IH rest2 (pre1 ++ [x]) (pre2 ++ [y])).
    rewrite length_app in IH. simpl in IH. rewrite Nat.add_1_r in IH.
    rewrite IH; [done| | | |].
    + by rewrite <- app_assoc.
    + by rewrite <- app_assoc.
    + rewrite !length_app. simpl. lia.
    + simpl in Hrest. lia.
Qed.

(** Whatever the arithmetic, two non-nil vectors of equal length give no
    error and the sum, accumulated from zero in index order, of the square
    roots of the squared coordinate differences. *)
Lemma EuclideanDistance_fold (a1 a2 : list F) :
  length a1 = length a2 ->
  EuclideanDistance (Some a1) (Some a2)
  = Ok (foldl sqrt_sq_step f_zero (zip a1 a2), None).
Proof.
  intros Hlen. unfold EuclideanDistance.
  replace (length a1 =? length a2)%nat with true by (symmetry; by apply Nat.eqb_eq).
  cbn [negb].
  by rewrite (EuclideanDistance_loop a1 a2 a1 a2 [] [] f_zero), bind_Ok_l.
Qed.

(** A nil vector or vectors of different lengths give an error. *)
Lemma EuclideanDistance_errors (v1 v2 : option (list F)) :
  (v1 = None \/ v2 = None ->
   EuclideanDistance v1 v2 = Ok (f_zero, Some "nil vec"%string)) /\
  (forall a1 a2, v1 = Some a1 -> v2 = Some a2 -> length a1 <> length a2 ->
   exists msg, EuclideanDistance v1 v2 = Ok (f_zero, Some msg)).
Proof.
  split.
  - intros [-> | ->]; [done|by destruct v1].
  - intros a1 a2 -> -> Hlen. unfold EuclideanDistance.
    replace (length a1 =? length a2)%nat with false
      by (symmetry; by apply Nat.eqb_neq).
    by eexists.
Qed.

End MathutilsGeneric.

(** ** The methods on the concrete scenario *)

Module ScenarioFacts.
Import PrimFloat Scenario.

(** C1, at a failing input.  The centroid at address 0 (vector [(0, 0)])
    holds the payloads 3, 2 and 1 at [(3, 0)], [(2, 0)] and [(1, 0)], none
    expired; the receiver at address 1 (vector [(5, 0)]) is empty.  The
    farthest-neighbour search answers the positions [0; 1] of payloads 3
    and 2.  After [DistributePayload(2, receivers)] the receiver holds
    payloads 3 and 2, and the distributing centroid holds payload 2 as
    well: payload 2 is in two collections and payload 1 is in none. *)
Theorem DistributePayload_duplicates_and_drops :
  let h : gmap nat (Centroid float payload) :=
    {[ 0%nat := centroid origin [p3; p2; p1];
       1%nat := centroid [5%float; 0%float] [] ]} in
  feed payloadVecGenerator (kfnEuclid origin 2) (0%nat, centroid origin [p3; p2; p1])
  = Ok ([0; 1], (3%nat, centroid origin [p3; p2; p1])) /\
  (fun h' : gmap nat (Centroid float payload) =>
     (DataPoints <$> h' !! 0%nat, DataPoints <$> h' !! 1%nat))
    <$> DistributePayload growslice maxcap h 0%nat 2 [1%nat]
  = Ok (Some [p2], Some [p3; p2]).
Proof. split; vm_compute; reflexivity. Qed.

(** C2, as stated, fails: of the 3 payloads 9 (expired), 1 and 2,
    [DrainOrdered(2)] returns payloads 2 and 1 and leaves none behind; the
    expired payload is removed without being returned. *)
Lemma DrainOrdered_removes_more_than_it_returns :
  observe (DrainOrdered maxcap (centroid origin [e9; p1; p2]) 2)
  = Ok ([p2; p1], [], 3%nat) /\
  length ([] : list payload) <> 1%nat /\
  ~ [e9; p1; p2] ≡ₚ [p2; p1] ++ [].
Proof.
  split; [vm_compute; reflexivity|]. split; [simpl; lia|].
  intros Hperm. apply Permutation_length in Hperm. done.
Qed.

(** C3, as stated, fails: with the payloads 9 (expired), 1 and 3,
    [KNNLookup((0, 0), 1, true)] returns payload 1 alone, and [LenDP] goes
    from 3 to 1. *)
Lemma KNNLookup_drain_shrinks_by_more :
  LenDP (centroid origin [e9; p1; p3]) = 3 /\
  observe (KNNLookup maxcap (centroid origin [e9; p1; p3]) origin 1 true)
  = Ok ([p1], [p3], 3%nat) /\
  Z.of_nat (length [p3]) <> 3 - Z.of_nat (length [p1]) /\
  ~ [e9; p1; p3] ≡ₚ [p1] ++ [p3].
Proof.
  split; [done|]. split; [vm_compute; reflexivity|]. split; [simpl; lia|].
  intros Hperm. apply Permutation_length in Hperm. done.
Qed.

(** C4, as stated, fails: with the payloads 9 (expired), 1 and 2,
    [DrainUnordered(1)] returns payload 1 alone, and [LenDP] goes from 3
    to 1. *)
Lemma DrainUnordered_shrinks_by_more :
  LenDP (centroid origin [e9; p1; p2]) = 3 /\
  observe (DrainUnordered maxcap (centroid origin [e9; p1; p2]) 1)
  = Ok ([p1], [p2], 3%nat) /\
  Z.of_nat (length [p2]) <> 3 - Z.of_nat (length [p1]).
Proof.
  split; [done|]. split; [vm_compute; reflexivity|]. simpl. lia.
Qed.

(** C8, at a failing input.  With the payloads 9 (expired) and 1,
    [MemTrim] leaves payload 1 in a backing store of capacity 2, while one
    payload is live. *)
Theorem MemTrim_capacity_counts_expired :
  (fun c' : Centroid float payload => (DataPoints c', DataPoints_cap c'))
    <$> MemTrim growslice (centroid origin [e9; p1])
  = Ok ([p1], 2%nat) /\
  length (filter live [e9; p1]) = 1%nat.
Proof. split; [vm_compute; reflexivity|done]. Qed.

(** The amended statements at concrete inputs. *)

Lemma DrainOrdered_descending_witness :
  let c := centroid origin [p1; p2; p3] in
  exists res c2,
    DrainOrdered maxcap c 2 = Ok (res, c2) /\
    Forall2 (fun j p => DataPoints c !! Z.to_nat j = Some p) [2; 1] res /\
    DataPoints c ≡ₚ res ++ DataPoints c2 /\
    DataPoints c2 `sublist_of` DataPoints c /\
    evicted c 3 c /\
    [2; 1] = feedList (kfnSearch c (vec c) 2) (Vec <$> filter live (DataPoints c)) /\
    LenDP c2 = LenDP c - Z.of_nat (length res) /\
    ((forall p, p ∈ DataPoints c -> Expired p = false) ->
     DataPoints c = DataPoints c).
Proof.
  apply (DrainOrdered_descending maxcap (centroid origin [p1; p2; p3]) 2 [2; 1] 3
           (centroid origin [p1; p2; p3])).
  - vm_compute. split; discriminate.
  - vm_compute. reflexivity.
  - reflexivity.
  - repeat constructor; vm_compute; discriminate.
Defined.

Lemma KNNLookup_drain_descending_witness :
  let c := centroid origin [e9; p3; p1] in
  let c1 := set_DataPoints c [p3; p1] 3 in
  (forall res c2,
     KNNLookup maxcap c origin 2 true = Ok (res, c2) ->
     length res = length [1; 0] /\
     LenDP c2 = LenDP c1 - Z.of_nat (length res) /\
     LenDP c2 = LenDP c - Z.of_nat (length res) - (LenDP c - LenDP c1)) /\
  exists res c2,
    KNNLookup maxcap c origin 2 true = Ok (res, c2) /\
    Forall2 (fun j p => DataPoints c1 !! Z.to_nat j = Some p) [1; 0] res /\
    DataPoints c1 ≡ₚ res ++ DataPoints c2 /\
    DataPoints c2 `sublist_of` DataPoints c1.
Proof.
  destruct (KNNLookup_drain_descending maxcap (centroid origin [e9; p3; p1])
              origin 2 [1; 0] 2
              (set_DataPoints (centroid origin [e9; p3; p1]) [p3; p1] 3))
    as (_ & _ & _ & _ & _ & Hreturns & Hdescending).
  - vm_compute. reflexivity.
  - split; [exact Hreturns|]. apply Hdescending.
    + vm_compute. split; discriminate.
    + reflexivity.
    + repeat constructor; vm_compute; discriminate.
Defined.

Lemma DrainUnordered_lengths_witness :
  let c := centroid origin [e9; p1; p2] in
  exists res c' pre,
    DrainUnordered maxcap c 1 = Ok (res, c') /\
    (forall p, p ∈ res -> Expired p = false) /\
    res = take (Z.to_nat 1) (filter live (DataPoints c)) /\
    Z.of_nat (length res) <= 1 /\
    (Z.of_nat (length res) < 1 ->
       length res = length (filter live (DataPoints c))) /\
    DataPoints c = pre ++ DataPoints c' /\
    res = filter live pre /\
    LenDP c'
    = LenDP c - Z.of_nat (length res)
      - Z.of_nat (length (filter (fun p => Expired p = true) pre)).
Proof.
  apply (DrainUnordered_lengths maxcap (centroid origin [e9; p1; p2]) 1).
  vm_compute. split; discriminate.
Defined.

Lemma NewCentroid_copies_witness :
  let σ : gmap nat (list float) := {[ 0%nat := [1.5%float; 2.5%float] ]} in
  let args := mkNewCentroidArgs (Some 0%nat) 4 (Some knnEuclid) (Some kfnEuclid) in
  (forall a, InitVec args = Some a -> is_Some (σ !! a)) /\
  (exists σ' (cr : CentroidOf float payload nat),
     NewCentroid maxcap zero σ args = Ok (σ', Some cr, true)) /\
  forall σ' (cr : CentroidOf float payload nat),
    NewCentroid maxcap zero σ args = Ok (σ', Some cr, true) ->
    vec (load σ' cr) = [1.5%float; 2.5%float] /\
    vec (load (<[0%nat := [7%float; 2.5%float]]> σ') cr) = [1.5%float; 2.5%float].
Proof.
  simpl.
  assert (Hwf : forall a,
    InitVec (mkNewCentroidArgs (Some 0%nat) 4 (Some knnEuclid) (Some kfnEuclid))
    = Some a ->
    is_Some (({[ 0%nat := [1.5%float; 2.5%float] ]} : gmap nat (list float)) !! a)).
  { intros a [= <-]. eexists. vm_compute. reflexivity. }
  split; [exact Hwf|].
  destruct (NewCentroid_copies (P := payload) maxcap zero _ _ Hwf)
    as (_ & Hok & Hreturns).
  split.
  { apply Hreturns; [by eexists|by eexists|]. vm_compute. split; discriminate. }
  intros σ' cr Hnew.
  specialize (Hok σ' (Some cr) true Hnew). simpl in Hok.
  destruct Hok as (_ & _ & _ & Hvec & Hwrite & _).
  split; [exact Hvec|]. exact (Hwrite 0%nat _ eq_refl).
Defined.

(** [MoveVector] with the arithmetic mean: payloads 1 and 2 are live and
    the vector moves to [(1.5, 0)]; with the expired payload alone the call
    returns false and the vector stays. *)
Lemma MoveVector_examples :
  (fun r : bool * Centroid float payload => (r.1, vec r.2, DataPoints r.2))
    <$> MoveVector VecMean (centroid origin [e9; p1; e9; p2])
  = Ok (true, [1.5%float; 0%float], [p1; p2]) /\
  (fun r : bool * Centroid float payload => (r.1, vec r.2, DataPoints r.2))
    <$> MoveVector VecMean (centroid origin [e9])
  = Ok (false, origin, []).
Proof. split; vm_compute; reflexivity. Qed.

(** [DistributePayload] where it keeps every payload: with the payloads 1,
    2 and 3 in this order the farthest-neighbour search answers [2; 1], and
    afterwards the receiver holds payloads 3 and 2 and the distributing
    centroid payload 1. *)
Lemma DistributePayload_no_loss_example :
  let c := centroid origin [p1; p2; p3] in
  let h : gmap nat (Centroid float payload) :=
    {[ 0%nat := c; 1%nat := centroid [5%float; 0%float] [] ]} in
  (exists h',
     DistributePayload growslice maxcap h 0%nat 2 [1%nat] = Ok h' /\
     evicted c 3 c /\
     payloads h' ≡ₚ payloads (<[0%nat := c]> h)) /\
  (fun h' : gmap nat (Centroid float payload) =>
     (DataPoints <$> h' !! 0%nat, DataPoints <$> h' !! 1%nat))
    <$> DistributePayload growslice maxcap h 0%nat 2 [1%nat]
  = Ok (Some [p1], Some [p3; p2]).
Proof.
  split; [|vm_compute; reflexivity].
  apply (DistributePayload_no_loss growslice maxcap _ 0%nat 2 [1%nat]
           (centroid origin [p1; p2; p3]) [2; 1] 3 (centroid origin [p1; p2; p3])).
  - done.
  - vm_compute. split; discriminate.
  - vm_compute. reflexivity.
  - repeat constructor. eexists. vm_compute. reflexivity.
  - repeat constructor.
  - repeat (apply Forall_cons; split); try apply Forall_nil; vm_compute; done.
  - vm_compute. reflexivity.
  - reflexivity.
  - repeat constructor; vm_compute; discriminate.
Defined.

(** On binary64 numbers: between [(3, 4)] and the origin the result is 7. *)
Lemma EuclideanDistance_binary64 :
  EuclideanDistance (Some [3%float; 4%float]) (Some origin)
  = Ok (7%float, None).
Proof. vm_compute. reflexivity. Qed.

End ScenarioFacts.

(** * Further properties *)

(** ** mathutils: errors *)

Section MathutilsErrors.
Context {F : Type} `{Float64Ops F} `{Float64Div F}.

(** The loops of [norm] and of the dot product, as left folds. *)
Lemma norm_loop (a : list F) :
  forall rest pre (x : F),
    a = pre ++ rest ->
    forRange
      (fun x i => v ← index a (Z.of_nat i); Ok (f_add x (f_mul v v)))
      (seq (length pre) (length rest)) x
    = Ok (foldl (fun x v => f_add x (f_mul v v)) x rest).
Proof.
  induction rest as [|v rest IH]; intros pre x Ha; [done|].
  cbn [length seq forRange].
  assert (Hv : a !! length pre = Some v)
    by (rewrite Ha, lookup_app_r, Nat.sub_diag by lia; done).
  rewrite (index_of_nat _ _ _ Hv), !bind_Ok_l.
  specialize (IH (pre ++ [v])). rewrite length_app in IH. simpl in IH.
  rewrite Nat.add_1_r in IH. rewrite IH; [done|]. by rewrite <- app_assoc.
Qed.

Lemma norm_fold (a : list F) :
  norm a = Ok (f_sqrt (foldl (fun x v => f_add x (f_mul v v)) f_zero a)).
Proof. unfold norm. by rewrite (norm_loop a a [] f_zero), bind_Ok_l. Qed.

Lemma dot_loop (a1 a2 : list F) :
  forall rest1 rest2 pre1 pre2 (d : F),
    a1 = pre1 ++ rest1 -> a2 = pre2 ++ rest2 ->
    length pre1 = length pre2 -> length rest1 = length rest2 ->
    forRange
      (fun d i =>
         x ← index a1 (Z.of_nat i);
         y ← index a2 (Z.of_nat i);
         Ok (f_add d (f_mul x y)))
      (seq (length pre1) (length rest1)) d
    = Ok (foldl (fun d xy => f_add d (f_mul xy.1 xy.2)) d (zip rest1 rest2)).
Proof.
  induction rest1 as [|x rest1 IH]; intros [|y rest2] pre1 pre2 d H1 H2 Hpre Hrest;
    try discriminate; [done|].
  cbn [length seq forRange].
  assert (Hx : a1 !! length pre1 = Some x)
    by (rewrite H1, lookup_app_r, Nat.sub_diag by lia; done).
  assert (Hy : a2 !! length pre1 = Some y)
    by (rewrite H2, Hpre, lookup_app_r, Nat.sub_diag by lia; done).
  rewrite (index_of_nat _ _ _ Hx), bind_Ok_l.
  rewrite (index_of_nat _ _ _ Hy), !bind_Ok_l.
  specialize (IH rest2 (pre1 ++ [x]) (pre2 ++ [y])).
  rewrite length_app in IH. simpl in IH. rewrite Nat.add_1_r in IH.
  rewrite IH; [done| | | |].
  - by rewrite <- app_assoc.
  - by rewrite <- app_assoc.
  - rewrite !length_app. simpl. lia.
  - simpl in Hrest. lia.
Qed.

(** What [CosineSimilarity] returns for two non-nil vectors of equal
    length, whatever the arithmetic. *)
Lemma CosineSimilarity_fold (a1 a2 : list F) :
  length a1 = length a2 ->
  CosineSimilarity (Some a1) (Some a2)
  = let norm1 := f_sqrt (foldl (fun x v => f_add x (f_mul v v)) f_zero a1) in
    let norm2 := f_sqrt (foldl (fun x v => f_add x (f_mul v v)) f_zero a2) in
    if f_eq norm1 f_zero && f_eq norm2 f_zero then Ok (f_zero, None)
    else
      Ok (f_div
            (f_div (foldl (fun d xy => f_add d (f_mul xy.1 xy.2)) f_zero (zip a1 a2))
               norm1)
            norm2, None).
Proof.
  intros Hlen. unfold CosineSimilarity.
  replace (length a1 =? length a2)%nat with true by (symmetry; by apply Nat.eqb_eq).
  cbn [negb]. rewrite !norm_fold, !bind_Ok_l. cbv zeta.
  destruct (f_eq _ f_zero && f_eq _ f_zero); [done|].
  by rewrite (dot_loop a1 a2 a1 a2 [] [] f_zero), bind_Ok_l.
Qed.

(** X1.  [EuclideanDistance] never panics: it returns a value and an error,
    the error is nil exactly when both vectors are non-nil and of the same
    length, and with an error the value is 0. *)
Theorem EuclideanDistance_error_iff (v1 v2 : option (list F)) :
  exists (d : F) (e : option string),
    EuclideanDistance v1 v2 = Ok (d, e) /\
    (e = None <->
       exists a1 a2, v1 = Some a1 /\ v2 = Some a2 /\ length a1 = length a2) /\
    (e <> None -> d = f_zero).
Proof.
  destruct v1 as [a1|], v2 as [a2|];
    try (eexists _, _; split; [done|]; split; [|done];
         split; [done|by intros (? & ? & ? & ? & ?)]).
  destruct (decide (length a1 = length a2)) as [Hlen|Hlen].
  - rewrite (EuclideanDistance_fold a1 a2 Hlen). eexists _, _.
    split; [done|]. split; [|done]. split; [|done]. intros _. by exists a1, a2.
  - unfold EuclideanDistance.
    replace (length a1 =? length a2)%nat with false
      by (symmetry; by apply Nat.eqb_neq).
    eexists _, _. split; [done|]. split; [|done].
    split; [done|]. intros (? & ? & [= <-] & [= <-] & ?). done.
Qed.

(** X2.  The same for [CosineSimilarity]. *)
Theorem CosineSimilarity_error_iff (v1 v2 : option (list F)) :
  exists (d : F) (e : option string),
    CosineSimilarity v1 v2 = Ok (d, e) /\
    (e = None <->
       exists a1 a2, v1 = Some a1 /\ v2 = Some a2 /\ length a1 = length a2) /\
    (e <> None -> d = f_zero).
Proof.
  destruct v1 as [a1|], v2 as [a2|];
    try (eexists _, _; split; [done|]; split; [|done];
         split; [done|by intros (? & ? & ? & ? & ?)]).
  destruct (decide (length a1 = length a2)) as [Hlen|Hlen].
  - rewrite (CosineSimilarity_fold a1 a2 Hlen). cbv zeta.
    destruct (f_eq _ f_zero && f_eq _ f_zero); eexists _, _;
      (split; [done|]; split; [|done]; split; [|done]; intros _; by exists a1, a2).
  - unfold CosineSimilarity.
    replace (length a1 =? length a2)%nat with false
      by (symmetry; by apply Nat.eqb_neq).
    eexists _, _. split; [done|]. split; [|done].
    split; [done|]. intros (? & ? & [= <-] & [= <-] & ?). done.
Qed.

End MathutilsErrors.

(** ** mathutils on binary64 numbers *)

Module Binary64Facts.
Import PrimFloat SpecFloat FloatOps FloatAxioms.

(** *** Integer coordinates: where the arithmetic is exact *)

Lemma Leibniz_eqb_eq (x y : float) : Leibniz.eqb x y = true -> x = y.
Proof. apply FloatAxioms.Leibniz.eqb_spec. Qed.

Lemma forallb_seqZ (f : Z -> bool) (lo n x : Z) :
  forallb f (seqZ lo n) = true -> lo <= x < lo + n -> f x = true.
Proof.
  intros Hall Hx. rewrite forallb_forall in Hall. apply Hall.
  apply list_elem_of_In, elem_of_seqZ. lia.
Qed.

(** Differences, roots of squares and sums of small integers are exact:
    checked on every pair of the range. *)
Lemma sub_exact (x y : Z) :
  -64 <= x <= 64 -> -64 <= y <= 64 -> sub (ofInt x) (ofInt y) = ofInt (x - y).
Proof.
  intros Hx Hy. apply Leibniz_eqb_eq.
  assert (Htable :
    forallb (fun x => forallb (fun y =>
      Leibniz.eqb (sub (ofInt x) (ofInt y)) (ofInt (x - y)))
      (seqZ (-64) 129)) (seqZ (-64) 129) = true) by (vm_compute; reflexivity).
  apply (forallb_seqZ _ _ _ x) in Htable; [|lia].
  apply (forallb_seqZ _ _ _ y) in Htable; [done|lia].
Qed.

Lemma sqrt_sq_exact (d : Z) :
  -128 <= d <= 128 -> sqrt (mul (ofInt d) (ofInt d)) = ofInt (Z.abs d).
Proof.
  intros Hd. apply Leibniz_eqb_eq.
  assert (Htable :
    forallb (fun d =>
      Leibniz.eqb (sqrt (mul (ofInt d) (ofInt d))) (ofInt (Z.abs d)))
      (seqZ (-128) 257) = true) by (vm_compute; reflexivity).
  apply (forallb_seqZ _ _ _ d) in Htable; [done|lia].
Qed.

Lemma add_exact (r e : Z) :
  0 <= r <= 1024 -> 0 <= e <= 128 -> add (ofInt r) (ofInt e) = ofInt (r + e).
Proof.
  intros Hr He. apply Leibniz_eqb_eq.
  assert (Htable :
    forallb (fun r => forallb (fun e =>
      Leibniz.eqb (add (ofInt r) (ofInt e)) (ofInt (r + e)))
      (seqZ 0 129)) (seqZ 0 1025) = true) by (vm_compute; reflexivity).
  apply (forallb_seqZ _ _ _ r) in Htable; [|lia].
  apply (forallb_seqZ _ _ _ e) in Htable; [done|lia].
Qed.

Lemma manhattanZ_nonneg (z1 z2 : list Z) : 0 <= manhattanZ z1 z2.
Proof.
  unfold manhattanZ. revert z2.
  induction z1 as [|x z1 IH]; intros [|y z2]; simpl; try lia.
  specialize (IH z2). lia.
Qed.

(** The loop on integer coordinates within the exact range. *)
Lemma foldl_sqrt_sq_step_exact (z1 : list Z) :
  forall (z2 : list Z) (r : Z),
    Forall (fun z => -64 <= z <= 64) z1 ->
    Forall (fun z => -64 <= z <= 64) z2 ->
    0 <= r -> r + manhattanZ z1 z2 <= 1024 ->
    foldl sqrt_sq_step (ofInt r) (zip (ofInt <$> z1) (ofInt <$> z2))
    = ofInt (r + manhattanZ z1 z2).
Proof.
  induction z1 as [|x z1 IH]; intros [|y z2] r H1 H2 Hr Hsum;
    try (simpl; f_equal; unfold manhattanZ; simpl; lia).
  apply Forall_cons in H1 as [Hx H1]. apply Forall_cons in H2 as [Hy H2].
  pose proof (manhattanZ_nonneg z1 z2) as Hnn.
  change (manhattanZ (x :: z1) (y :: z2))
    with (Z.abs (x - y) + manhattanZ z1 z2) in *.
  cbn [fmap list_fmap zip zip_with foldl].
  assert (Hstep : sqrt_sq_step (ofInt r) (ofInt x, ofInt y)
                  = ofInt (r + Z.abs (x - y))).
  { unfold sqrt_sq_step. cbn [fst snd f_add f_sqrt f_mul f_sub binary64_ops].
    rewrite (sub_exact x y Hx Hy), sqrt_sq_exact by lia.
    apply add_exact; lia. }
  rewrite Hstep, IH by (try done; lia). f_equal. lia.
Qed.

(** Where squaring and taking the root gives the absolute value, the loop
    adds up absolute differences. *)
Lemma foldl_sqrt_sq_step_abs (l : list (float * float)) :
  forall r : float,
    Forall (fun xy : float * float =>
      sqrt (mul (sub xy.1 xy.2) (sub xy.1 xy.2)) = abs (sub xy.1 xy.2)) l ->
    foldl sqrt_sq_step r l
    = foldl (fun r xy => add r (abs (sub xy.1 xy.2))) r l.
Proof.
  induction l as [|[x y] l IH]; intros r Hall; [done|].
  apply Forall_cons in Hall as [Hxy Hall]. cbn [foldl].
  rewrite <- IH by done. f_equal.
  unfold sqrt_sq_step. cbn [fst snd f_add f_sqrt f_mul f_sub binary64_ops] in *.
  by rewrite Hxy.
Qed.

(** C10, as amended.  On binary64 numbers, for two non-nil vectors of equal
    length [EuclideanDistance] returns no error and the sum, accumulated
    from 0 in index order, of [sqrt ((v1[i] - v2[i]) * (v1[i] - v2[i]))],
    every operation rounded.  Where the root of the square is the absolute
    value of the difference at every index, this is the L1 (Manhattan)
    distance in binary64 arithmetic; for integer coordinates between -64
    and 64 and a distance of at most 1024 it is exactly the sum of the
    absolute coordinate differences. *)
Theorem EuclideanDistance_is_manhattan (a1 a2 : list float) :
  length a1 = length a2 ->
  EuclideanDistance (Some a1) (Some a2)
  = Ok (foldl sqrt_sq_step zero (zip a1 a2), None) /\
  (Forall (fun xy : float * float =>
     sqrt (mul (sub xy.1 xy.2) (sub xy.1 xy.2)) = abs (sub xy.1 xy.2))
     (zip a1 a2) ->
   EuclideanDistance (Some a1) (Some a2) = Ok (manhattan a1 a2, None)) /\
  (forall z1 z2 : list Z,
     a1 = ofInt <$> z1 -> a2 = ofInt <$> z2 ->
     Forall (fun z => -64 <= z <= 64) z1 ->
     Forall (fun z => -64 <= z <= 64) z2 ->
     manhattanZ z1 z2 <= 1024 ->
     EuclideanDistance (Some a1) (Some a2) = Ok (ofInt (manhattanZ z1 z2), None)).
Proof.
  intros Hlen. pose proof (EuclideanDistance_fold a1 a2 Hlen) as Hfold.
  split; [exact Hfold|]. split.
  - intros Habs. rewrite Hfold. do 2 f_equal.
    by apply foldl_sqrt_sq_step_abs.
  - intros z1 z2 -> -> H1 H2 Hsum. rewrite Hfold. do 2 f_equal.
    change (@f_zero float binary64_ops) with (ofInt 0).
    by rewrite foldl_sqrt_sq_step_exact.
Qed.

Lemma float_neq (x y : float) : classify x <> classify y -> x <> y.
Proof. intros Hc ->. done. Qed.

(** C10, as stated, fails on binary64 numbers: between [2^600] and 0 the
    square overflows and the result is infinity, between [2^-600] and 0 the
    square underflows and the result is 0, while the absolute differences
    are [2^600] and [2^-600]. *)
Lemma EuclideanDistance_overflows :
  EuclideanDistance (Some [0x1p600%float]) (Some [0%float])
  = Ok (infinity, None) /\
  manhattan [0x1p600%float] [0%float] = 0x1p600%float /\
  0x1p600%float <> infinity /\
  EuclideanDistance (Some [0x1p-600%float]) (Some [0%float])
  = Ok (0%float, None) /\
  manhattan [0x1p-600%float] [0%float] = 0x1p-600%float /\
  0x1p-600%float <> 0%float.
Proof.
  split; [vm_compute; reflexivity|]. split; [vm_compute; reflexivity|].
  split; [apply float_neq; vm_compute; discriminate|].
  split; [vm_compute; reflexivity|]. split; [vm_compute; reflexivity|].
  apply float_neq; vm_compute; discriminate.
Qed.

(** The result is not the square root of the sum of the squared
    differences: between [(3, 4)] and the origin it is 7, not 5. *)
Lemma EuclideanDistance_not_euclidean :
  EuclideanDistance (Some [3%float; 4%float]) (Some [0%float; 0%float])
  = Ok (7%float, None) /\
  euclidean [3%float; 4%float] [0%float; 0%float] = 5%float.
Proof. split; vm_compute; reflexivity. Qed.

Lemma EuclideanDistance_is_manhattan_witness :
  EuclideanDistance (Some (ofInt <$> [3; 4])) (Some (ofInt <$> [0; 0]))
  = Ok (ofInt 7, None) /\
  EuclideanDistance (Some (ofInt <$> [3; 4])) (Some (ofInt <$> [0; 0]))
  = Ok (manhattan (ofInt <$> [3; 4]) (ofInt <$> [0; 0]), None).
Proof.
  destruct (EuclideanDistance_is_manhattan (ofInt <$> [3; 4]) (ofInt <$> [0; 0]))
    as (_ & Habs & Hint); [reflexivity|].
  split.
  - apply (Hint [3; 4] [0; 0]); try reflexivity.
    + repeat constructor; lia.
    + repeat constructor; lia.
    + vm_compute. discriminate.
  - apply Habs. repeat constructor.
Defined.

(** *** Symmetry and sign

    The operations of binary64 numbers are specified by the functions of
    [SpecFloat] on sign, mantissa and exponent. *)






Lemma binary_round_aux_nonneg (m e : Z) (l : location) :
  SFnonneg (binary_round_aux prec emax false m e l) = true.
Proof.
  unfold binary_round_aux.
  destruct (shr_fexp prec emax m e l) as [mrs e'].
  destruct (shr_fexp prec emax _ e' loc_Exact) as [mrs' e''].
  destruct (shr_m mrs') as [|p|p]; [done| |done].
  by destruct (Z.leb e'' (emax - prec)).
Qed.

Lemma SFmul_self_nonneg (x : spec_float) : SFnonneg (SF64mul x x) = true.
Proof.
  destruct x as [s|s| |s m e]; simpl; rewrite ?xorb_nilpotent; try done.
  apply binary_round_aux_nonneg.
Qed.

Lemma SFsqrt_nonneg (x : spec_float) :
  SFnonneg x = true -> SFnonneg (SF64sqrt x) = true.
Proof.
  destruct x as [[]|[]| |[] m e]; try done. intros _.
  unfold SF64sqrt, SFsqrt.
  destruct (SFsqrt_core_binary prec emax (Z.pos m) e) as [[mz ez] lz].
  apply binary_round_aux_nonneg.
Qed.

Lemma SFadd_nonneg (x y : spec_float) :
  SFnonneg x = true -> SFnonneg y = true -> SFnonneg (SF64add x y) = true.
Proof.
  destruct x as [[]|[]| |[] mx ex], y as [[]|[]| |[] my ey]; try done.
  intros _ _. unfold SF64add, SFadd. cbn [cond_Zopp].
  set (a := fst (shl_align mx ex (Z.min ex ey))).
  set (b := fst (shl_align my ey (Z.min ex ey))).
  change (Z.pos a + Z.pos b) with (Z.pos (a + b)).
  cbn [binary_normalize]. unfold binary_round.
  destruct (shl_align (a + b) _ _) as [mz ez].
  apply binary_round_aux_nonneg.
Qed.

Lemma SFnonneg_ltb (x : float) :
  SFnonneg (Prim2SF x) = true -> ltb x zero = false.
Proof.
  rewrite ltb_spec. change (Prim2SF zero) with (S754_zero false).
  by destruct (Prim2SF x) as [[]|[]| |[] m e].
Qed.





(** *** Vectors of zeros *)

Lemma sum_squares_nonneg (a : list float) :
  forall x : float,
    SFnonneg (Prim2SF x) = true ->
    SFnonneg (Prim2SF (foldl (fun x v => add x (mul v v)) x a)) = true.
Proof.
  induction a as [|v a IH]; intros x Hx; [done|].
  cbn [foldl]. apply IH. rewrite add_spec. apply SFadd_nonneg; [done|].
  rewrite mul_spec. apply SFmul_self_nonneg.
Qed.

Lemma sum_squares_zero (a : list float) :
  Forall isZero a -> foldl (fun x v => add x (mul v v)) zero a = zero.
Proof.
  induction 1 as [|v a Hv _ IH]; [done|].
  unfold isZero in Hv. destruct Hv as [->| ->]; exact IH.
Qed.

(** X5.  On binary64 numbers [norm] returns, its result is never less than
    0 (it is a number that is not negative, or NaN), and it is 0 for a
    vector of zeros. *)
Theorem norm_not_negative (a : list float) :
  exists n : float,
    norm a = Ok n /\
    ltb n zero = false /\
    (Forall isZero a -> n = zero).
Proof.
  eexists. split; [apply norm_fold|].
  cbn [f_add f_sqrt f_mul f_zero binary64_ops]. split.
  - apply SFnonneg_ltb. rewrite sqrt_spec.
    apply SFsqrt_nonneg, sum_squares_nonneg. reflexivity.
  - intros Hz. by rewrite sum_squares_zero.
Qed.

Lemma isZero_Prim2SF (x : float) :
  isZero x -> exists s, Prim2SF x = S754_zero s.
Proof. unfold isZero. intros [->| ->]; by eexists. Qed.

Lemma Prim2SF_nan (x : float) : Prim2SF x = S754_nan -> x = nan.
Proof. intros Hx. by apply Prim2SF_inj. Qed.

Lemma SFadd_mul_zn (d x y : spec_float) :
  SFzn d = true ->
  (exists s, x = S754_zero s) \/ (exists s, y = S754_zero s) ->
  SFzn (SF64add d (SF64mul x y)) = true.
Proof.
  intros Hd [[sx ->]|[sy ->]].
  - destruct d as [sd|sd| |sd md ed], y as [sy|sy| |sy my ey]; try done;
      simpl; by destruct sd, (xorb sx sy).
  - destruct d as [sd|sd| |sd md ed], x as [sx|sx| |sx mx ex]; try done;
      simpl; by destruct sd, (xorb sx sy).
Qed.

Lemma dot_zn (l : list (float * float)) :
  forall d : float,
    SFzn (Prim2SF d) = true ->
    Forall (fun xy : float * float => isZero xy.1 \/ isZero xy.2) l ->
    SFzn (Prim2SF (foldl (fun d xy => add d (mul xy.1 xy.2)) d l)) = true.
Proof.
  induction l as [|[x y] l IH]; intros d Hd Hall; [done|].
  apply Forall_cons in Hall as [Hxy Hall]. cbn [foldl]. apply IH; [|done].
  rewrite add_spec, mul_spec. apply SFadd_mul_zn; [done|]. simpl in Hxy.
  destruct Hxy as [Hz|Hz]; apply isZero_Prim2SF in Hz; [by left|by right].
Qed.

Lemma Forall_zip_l {A B : Type} (Q : A -> Prop) (a : list A) (b : list B) :
  Forall Q a -> Forall (fun xy : A * B => Q xy.1) (zip a b).
Proof.
  intros Ha. revert b. induction Ha as [|x a Hx _ IH]; intros [|y b]; try done.
  constructor; [done|apply IH].
Qed.

Lemma Forall_zip_r {A B : Type} (Q : B -> Prop) (a : list A) (b : list B) :
  Forall Q b -> Forall (fun xy : A * B => Q xy.2) (zip a b).
Proof.
  intros Hb. revert a. induction Hb as [|y b Hy _ IH]; intros [|x a]; try done.
  constructor; [done|apply IH].
Qed.

Lemma div_zn_zero (d : float) :
  SFzn (Prim2SF d) = true -> div d zero = nan.
Proof.
  intros Hd. apply Prim2SF_nan. rewrite div_spec.
  change (Prim2SF zero) with (S754_zero false).
  by destruct (Prim2SF d) as [sd|sd| |sd md ed].
Qed.

Lemma div_nan (y : float) : div nan y = nan.
Proof.
  apply Prim2SF_nan. rewrite div_spec. change (Prim2SF nan) with S754_nan.
  by destruct (Prim2SF y).
Qed.

Lemma div_zn (d y : float) :
  SFzn (Prim2SF d) = true -> SFzn (Prim2SF (div d y)) = true.
Proof.
  intros Hd. rewrite div_spec.
  by destruct (Prim2SF d) as [sd|sd| |sd md ed], (Prim2SF y) as [sy|sy| |sy my ey].
Qed.

(** X7.  On binary64 numbers, for a vector [a] of zeros and a vector [b] of
    the same length: when [b] is a vector of zeros as well,
    [CosineSimilarity] returns 0 without an error (both norms are 0); when
    the norm of [b] is not 0, the guard does not apply and the divisions by
    the norm 0 give NaN without an error, whichever vector comes first. *)
Theorem CosineSimilarity_zero_vector (a b : list float) :
  length a = length b -> Forall isZero a ->
  (Forall isZero b -> CosineSimilarity (Some a) (Some b) = Ok (zero, None)) /\
  (forall n2 : float,
     norm b = Ok n2 -> eqb n2 zero = false ->
     CosineSimilarity (Some a) (Some b) = Ok (nan, None) /\
     CosineSimilarity (Some b) (Some a) = Ok (nan, None)).
Proof.
  intros Hlen Ha.
  rewrite (CosineSimilarity_fold a b Hlen), (CosineSimilarity_fold b a (eq_sym Hlen)).
  cbv zeta. cbn [f_add f_sqrt f_mul f_zero f_div f_eq binary64_ops binary64_div].
  rewrite (sum_squares_zero a Ha). split.
  - intros Hb. by rewrite (sum_squares_zero b Hb).
  - intros n2. rewrite norm_fold.
    cbn [f_add f_sqrt f_mul f_zero binary64_ops]. intros [= <-] Hn2.
    rewrite Hn2. change (eqb (sqrt zero) zero) with true.
    change (true && false) with false. change (false && true) with false.
    cbv iota. change (sqrt zero) with zero. split; do 2 f_equal.
    + rewrite div_zn_zero; [apply div_nan|].
      apply dot_zn; [done|]. eapply Forall_impl; [by apply Forall_zip_l|].
      simpl. by left.
    + apply div_zn_zero, div_zn, dot_zn; [done|].
      eapply Forall_impl; [by apply Forall_zip_r|]. simpl. by right.
Qed.


Lemma CosineSimilarity_zero_vector_witness :
  CosineSimilarity (Some [zero; neg_zero]) (Some [zero; zero])
  = Ok (zero, None) /\
  norm [3%float; 4%float] = Ok 5%float /\
  CosineSimilarity (Some [zero; neg_zero]) (Some [3%float; 4%float])
  = Ok (nan, None) /\
  CosineSimilarity (Some [3%float; 4%float]) (Some [zero; neg_zero])
  = Ok (nan, None).
Proof.
  assert (Hzeros : Forall isZero [zero; neg_zero]).
  { apply Forall_cons. split; [by left|].
    apply Forall_cons. split; [by right|]. done. }
  split.
  - apply (proj1 (CosineSimilarity_zero_vector [zero; neg_zero] [zero; zero]
                    eq_refl Hzeros)).
    apply Forall_cons. split; [by left|].
    apply Forall_cons. split; [by left|]. done.
  - split; [vm_compute; reflexivity|].
    apply (proj2 (CosineSimilarity_zero_vector [zero; neg_zero]
                    [3%float; 4%float] eq_refl Hzeros) 5%float);
      vm_compute; reflexivity.
Defined.

End Binary64Facts.

(** ** The centroid: the generator, expiry and trimming *)

Section KmeansMore.
Context {float64 P : Type} `{PayloadContainer float64 P}.

Implicit Types (c : Centroid float64 P) (p : P) (dp : list P).

Lemma filter_live_idem dp : filter live (filter live dp) = filter live dp.
Proof.
  apply filter_live_all, Forall_forall. intros p Hp.
  by apply list_elem_of_filter in Hp as [? _].
Qed.

Lemma length_filter_live_all dp :
  length (filter live dp) = length dp <-> Forall live dp.
Proof.
  split; [|by intros ->%filter_live_all].
  induction dp as [|p dp IH]; intros Hlen; [done|].
  pose proof (length_filter live dp) as Hle.
  destruct (Expired p) eqn:He.
  - rewrite filter_cons_False in Hlen by (unfold live; congruence).
    simpl in Hlen. lia.
  - rewrite filter_cons_True in Hlen by done. simpl in Hlen.
    constructor; [done|]. apply IH. lia.
Qed.

(** X9.  Whatever the consumer, running it against the payload generator
    returns; what it gets to see are the vectors of the payloads that are
    not expired, in store order; and the only payloads that leave the
    collection are expired ones (the vector, the capacity and the search
    functions are untouched). *)
Theorem payloadVecGenerator_yields_live {A : Type}
    (prog : consumer float64 A) c :
  exists (a : A) (i : nat) c1,
    feed payloadVecGenerator prog (0%nat, c) = Ok (a, (i, c1)) /\
    a = feedList prog (Vec <$> filter live (DataPoints c)) /\
    evicted c i c1.
Proof.
  destruct (feed_payloadVecGenerator prog 0 c c (evicted_refl c))
    as (a & i & c1 & Hfeed & Hev).
  destruct (feed_payloadVecGenerator_answer prog 0 c) as (i' & c1' & Hans); [lia|].
  rewrite Hfeed, drop_0 in Hans. injection Hans as Hans _ _.
  by exists a, i, c1.
Qed.

(** X10.  When the generator, with its cursor behind [i] payloads that are
    not expired, reports the end of the sequence, the collection it leaves
    holds exactly the payloads that were not expired: reading the generator
    to its end sweeps the collection like [Expire]. *)
Theorem payloadVecGenerator_exhausted (i i' : nat) c c' :
  (i <= length (DataPoints c))%nat ->
  Forall live (take i (DataPoints c)) ->
  payloadVecGenerator (i, c) = Ok (None, (i', c')) ->
  i' = i /\
  DataPoints c' = filter live (DataPoints c) /\
  Expire c = Ok c'.
Proof.
  intros Hi Hlive Hgen.
  destruct (payloadVecGenerator_step i c Hi) as (es & rest & Hdp & Hes & Hstep).
  destruct rest as [|p rest]; [|destruct Hstep as [_ Hstep]; congruence].
  rewrite Hstep in Hgen. injection Hgen as <- <-.
  assert (Hfilter : filter live (DataPoints c) = take i (DataPoints c)).
  { rewrite Hdp at 1. rewrite app_nil_r, filter_app, (filter_live_expired es Hes).
    by rewrite app_nil_r, filter_live_all. }
  split; [done|]. split; [by rewrite Hfilter|].
  by rewrite Expire_filter, Hfilter.
Qed.

(** X11.  [Expire] is idempotent: a second sweep changes nothing. *)
Theorem Expire_idempotent c :
  exists c1, Expire c = Ok c1 /\ Expire c1 = Ok c1 /\ LenDP c1 <= LenDP c.
Proof.
  eexists. split; [apply Expire_filter|]. split.
  - rewrite Expire_filter. simpl. by rewrite filter_live_idem.
  - unfold LenDP. simpl. pose proof (length_filter live (DataPoints c)). lia.
Qed.

(** X12.  [MemTrim] keeps the payloads that are not expired, in their
    order, and gives the new backing store the length the collection had
    before; so the capacity equals the new length exactly when no payload
    was expired. *)
Theorem MemTrim_capacity (growslice : nat -> nat -> nat) c :
  exists c',
    MemTrim growslice c = Ok c' /\
    DataPoints c' = filter live (DataPoints c) /\
    DataPoints_cap c' = length (DataPoints c) /\
    vec c' = vec c /\
    (DataPoints_cap c' = length (DataPoints c') <->
     forall p, p ∈ DataPoints c -> Expired p = false).
Proof.
  eexists. split; [apply MemTrim_filter|]. simpl.
  split; [done|]. split; [done|]. split; [done|].
  split.
  - intros Hcap. apply (Forall_forall live), length_filter_live_all. done.
  - intros Hall. symmetry. apply length_filter_live_all, Forall_forall, Hall.
Qed.

(** X13.  [Expire] followed by [MemTrim], the sequence the comment of
    [Expire] asks for, leaves exactly the payloads that were not expired in
    a backing store whose capacity is their number. *)
Theorem Expire_then_MemTrim (growslice : nat -> nat -> nat) c :
  exists c1 c2,
    Expire c = Ok c1 /\
    MemTrim growslice c1 = Ok c2 /\
    DataPoints c2 = filter live (DataPoints c) /\
    DataPoints_cap c2 = length (DataPoints c2) /\
    vec c2 = vec c.
Proof.
  eexists _, _. split; [apply Expire_filter|].
  split; [apply MemTrim_filter|]. simpl.
  by rewrite filter_live_idem.
Qed.

End KmeansMore.

(** ** The centroid: the two passes for any index list *)

Lemma delete_delete_lt {A : Type} (l : list A) (j j' : nat) :
  (j < j')%nat -> delete j' (delete j l) = delete j (delete (Datatypes.S j') l).
Proof.
  revert j j'. induction l as [|x l IH]; intros j j' Hlt; [done|].
  destruct j' as [|j']; [lia|]. destruct j as [|j]; [done|].
  simpl. f_equal. apply IH. lia.
Qed.

Section TwoPasses.
Context {float64 P : Type} `{PayloadContainer float64 P}.
Variable maxcap : Z.

Implicit Types (c : Centroid float64 P) (p : P) (dp : list P).

(** X14.  Whatever index list the farthest-neighbour search answers,
    [DrainOrdered] either panics or returns one payload per index, taken
    from the collection the generator left, and leaves a sub-sequence of
    that collection that is shorter by the number of indices; the vector
    and the capacity stay.  (Which payloads are removed depends on the order
    of the indices.) *)
Theorem DrainOrdered_counts c (n : Z) :
  exists (idx : list Z) (i : nat) c1,
    feed payloadVecGenerator (kfnSearch c (vec c) n) (0%nat, c) = Ok (idx, (i, c1)) /\
    evicted c i c1 /\
    (DrainOrdered maxcap c n = Panic \/
     exists res c2,
       DrainOrdered maxcap c n = Ok (res, c2) /\
       0 <= n <= maxcap /\
       Forall2 (fun j p => DataPoints c1 !! Z.to_nat j = Some p) idx res /\
       DataPoints c2 `sublist_of` DataPoints c1 /\
       LenDP c2 = LenDP c1 - Z.of_nat (length res) /\
       vec c2 = vec c /\
       DataPoints_cap c2 = DataPoints_cap c).
Proof.
  destruct (feed_payloadVecGenerator (kfnSearch c (vec c) n) 0 c c (evicted_refl c))
    as (idx & i & c1 & Hfeed & Hev).
  exists idx, i, c1. split; [done|]. split; [done|].
  unfold DrainOrdered.
  destruct (make_cases (P := P) maxcap n) as [[Hn ->]|[_ ->]]; [|by left].
  rewrite bind_Ok_l, Hfeed, bind_Ok_l.
  destruct (collect_cases c1 idx) as [(_ & res & -> & Hlk)|[_ ->]]; [|by left].
  rewrite bind_Ok_l.
  destruct (drain_cases idx c1) as [->|(dp' & -> & Hsub & Hlen)]; [by left|].
  right. eexists _, _. rewrite bind_Ok_l. split; [done|]. split; [done|].
  split; [done|]. split; [done|].
  destruct Hev as (_ & _ & _ & _ & Hc1).
  split; [|by rewrite Hc1].
  unfold LenDP. simpl. rewrite <- (Forall2_length _ _ _ Hlk). lia.
Qed.

(** X15.  [KNNLookup] without draining returns exactly when [k] is not
    negative and within the capacity [make] grants, and every index the
    search answers is within the collection the generator left; it then
    returns the payloads at those indices, in the order of the indices, and
    takes nothing from that collection.  Otherwise it panics. *)
Theorem KNNLookup_no_drain c (v : list float64) (k : Z) :
  exists (idx : list Z) (i : nat) c1,
    feed payloadVecGenerator (knnSearch c v k) (0%nat, c) = Ok (idx, (i, c1)) /\
    evicted c i c1 /\
    (0 <= k <= maxcap /\ Forall (fun j => 0 <= j < LenDP c1) idx ->
     exists res,
       KNNLookup maxcap c v k false = Ok (res, c1) /\
       Forall2 (fun j p => DataPoints c1 !! Z.to_nat j = Some p) idx res) /\
    (~ (0 <= k <= maxcap /\ Forall (fun j => 0 <= j < LenDP c1) idx) ->
     KNNLookup maxcap c v k false = Panic).
Proof.
  destruct (feed_payloadVecGenerator (knnSearch c v k) 0 c c (evicted_refl c))
    as (idx & i & c1 & Hfeed & Hev).
  exists idx, i, c1. split; [done|]. split; [done|].
  unfold KNNLookup. destruct (make_cases (P := P) maxcap k) as [[Hk ->]|[Hk ->]].
  - rewrite bind_Ok_l, Hfeed, bind_Ok_l.
    destruct (collect_cases c1 idx) as [(Hall & res & -> & Hlk)|[Hnot ->]].
    + split; [|by intros []]. intros _. exists res. by rewrite bind_Ok_l.
    + split; [by intros [_ ?]|done].
  - split; [by intros [? _]|done].
Qed.

(** X16.  The [drain] flag does not change what [KNNLookup] returns: when
    the draining call returns, the call without draining returns the same
    payloads, and draining has taken one payload for each of them from the
    collection the other call leaves. *)
Theorem KNNLookup_drain_flag c (v : list float64) (k : Z) (res : list P) c2 :
  KNNLookup maxcap c v k true = Ok (res, c2) ->
  exists c1,
    KNNLookup maxcap c v k false = Ok (res, c1) /\
    DataPoints c2 `sublist_of` DataPoints c1 /\
    LenDP c2 = LenDP c1 - Z.of_nat (length res).
Proof.
  unfold KNNLookup. destruct (make_cases (P := P) maxcap k) as [[_ ->]|[_ ->]]; [|done].
  destruct (feed_payloadVecGenerator (knnSearch c v k) 0 c c (evicted_refl c))
    as (idx & i & c1 & -> & Hev).
  rewrite !bind_Ok_l.
  destruct (collect_cases c1 idx) as [(_ & res' & -> & Hlk)|[_ ->]]; [|done].
  rewrite !bind_Ok_l.
  destruct (drain_cases idx c1) as [->|(dp' & -> & Hsub & Hlen)]; [done|].
  rewrite bind_Ok_l. intros [= <- <-]. exists c1. split; [done|].
  split; [done|]. unfold LenDP. simpl.
  rewrite <- (Forall2_length _ _ _ Hlk). lia.
Qed.

(** X17.  The two-pass removal on two increasing indices [j < j'], for
    [n] not negative and within the capacity [make] grants:
    [DrainOrdered] returns the payloads at [j] and [j'], but the second
    [rmPayload] works on the collection already shifted by the first, so
    what leaves the collection are the payloads at [j] and [j' + 1]; the
    payload at [j'] is returned and still held.  When [j'] is the last
    position the second [rmPayload] panics. *)
Theorem DrainOrdered_increasing_pair c (n j j' : Z) (i : nat) c1 :
  0 <= n <= maxcap ->
  feed payloadVecGenerator (kfnSearch c (vec c) n) (0%nat, c)
  = Ok ([j; j'], (i, c1)) ->
  0 <= j < j' -> j' < LenDP c1 ->
  (j' + 1 < LenDP c1 ->
   exists pj pj' c2,
     DrainOrdered maxcap c n = Ok ([pj; pj'], c2) /\
     DataPoints c1 !! Z.to_nat j = Some pj /\
     DataPoints c1 !! Z.to_nat j' = Some pj' /\
     DataPoints c2
     = delete (Z.to_nat j) (delete (Z.to_nat (j' + 1)) (DataPoints c1)) /\
     DataPoints c2 !! Z.to_nat (j' - 1) = Some pj') /\
  (j' + 1 = LenDP c1 -> DrainOrdered maxcap c n = Panic).
Proof.
  intros Hn Hfeed Hj Hj'. unfold LenDP in *.
  destruct (lookup_lt_is_Some_2 (DataPoints c1) (Z.to_nat j)) as [pj Hpj]; [lia|].
  destruct (lookup_lt_is_Some_2 (DataPoints c1) (Z.to_nat j')) as [pj' Hpj']; [lia|].
  assert (Hcollect : collect c1 [j; j'] = Ok [pj; pj']).
  { unfold collect. cbn [forRange].
    rewrite (proj2 (index_Ok _ _ _) (conj (proj1 Hj) Hpj)), !bind_Ok_l.
    assert (0 <= j') as Hj0 by lia.
    rewrite (proj2 (index_Ok _ _ _) (conj Hj0 Hpj')).
    by rewrite !bind_Ok_l. }
  assert (Hrm : rmPayload c1 j
    = Ok (set_DataPoints c1 (delete (Z.to_nat j) (DataPoints c1)) (DataPoints_cap c1)))
    by (apply rmPayload_Ok; split; [lia|done]).
  assert (Hlen : length (delete (Z.to_nat j) (DataPoints c1))
                 = (length (DataPoints c1) - 1)%nat)
    by (apply length_delete; by eexists).
  unfold DrainOrdered. rewrite make_Ok, bind_Ok_l by done.
  rewrite Hfeed, bind_Ok_l, Hcollect, bind_Ok_l.
  unfold drain. cbn [forRange]. rewrite Hrm, bind_Ok_l. split.
  - intros Hin. exists pj, pj'. eexists.
    match goal with |- context [rmPayload ?c1' j'] =>
      assert (Hrm2 : rmPayload c1' j'
        = Ok (set_DataPoints c1' (delete (Z.to_nat j') (DataPoints c1'))
                (DataPoints_cap c1')))
        by (apply rmPayload_Ok; split; [simpl; lia|done]);
      rewrite Hrm2
    end.
    rewrite !bind_Ok_l. simpl. split; [done|]. split; [done|]. split; [done|].
    rewrite delete_delete_lt by lia.
    replace (Datatypes.S (Z.to_nat j')) with (Z.to_nat (j' + 1)) by lia.
    split; [done|]. simpl.
    rewrite list_lookup_delete_ge by lia.
    replace (Datatypes.S (Z.to_nat (j' - 1))) with (Z.to_nat j') by lia.
    by rewrite list_lookup_delete_lt by lia.
  - intros Hlast.
    destruct (rmPayload _ j') as [c2| |] eqn:Hrm2; [|done|].
    + apply rmPayload_Ok in Hrm2 as [Hrange _]. simpl in Hrange. lia.
    + unfold rmPayload in Hrm2. by destruct (_ && _).
Qed.

End TwoPasses.

(** ** The centroid: what the methods keep *)

Lemma bind_Ok_inv {A B : Type} (m : result A) (f : A -> result B) (b : B) :
  m ≫= f = Ok b -> exists a, m = Ok a /\ f a = Ok b.
Proof. destruct m as [a| |]; [by exists a|done..]. Qed.

Lemma Forall_sublist_of {A : Type} (Q : A -> Prop) (l1 l2 : list A) :
  l1 `sublist_of` l2 -> Forall Q l2 -> Forall Q l1.
Proof.
  induction 1 as [|x l1 l2 _ IH|x l1 l2 _ IH]; intros Hall; [done| |].
  - apply Forall_cons in Hall as [? ?]. constructor; [done|by apply IH].
  - apply Forall_cons in Hall as [? ?]. by apply IH.
Qed.

Section Invariants.
Context {float64 P : Type} `{PayloadContainer float64 P}.
Variable growslice : nat -> nat -> nat.
Variable maxcap : Z.

Implicit Types (c : Centroid float64 P) (p : P) (dp : list P).
Implicit Types (h : gmap nat (Centroid float64 P)).

Lemma consistent_sublist c dp (cp : nat) :
  consistent c -> dp `sublist_of` DataPoints c ->
  consistent (set_DataPoints c dp cp).
Proof. unfold consistent. simpl. intros Hc Hsub. by eapply Forall_sublist_of. Qed.

Lemma consistent_AddPayload c p :
  consistent c -> consistent (AddPayload growslice c p).2.
Proof.
  intros Hc. unfold AddPayload, append.
  destruct (Nat.eqb_spec (length (Vec p)) (length (vec c))) as [Hlen|Hlen];
    [|done].
  destruct (Expired p); [done|]. unfold consistent. simpl.
  apply Forall_app. split; [done|]. by constructor.
Qed.

Lemma evicted_consistent c (i : nat) c1 :
  evicted c i c1 -> consistent c -> consistent c1.
Proof.
  intros (_ & _ & _ & Hsub & ->) Hc. by apply consistent_sublist.
Qed.

(** What the two passes return and leave, for a consistent collection. *)
Lemma two_passes_consistent c1 (indexes : list Z) (res : list P) c2 :
  consistent c1 ->
  collect c1 indexes = Ok res -> drain c1 indexes = Ok c2 ->
  consistent c2 /\ Forall (fun p => length (Vec p) = length (vec c1)) res.
Proof.
  intros Hc Hcollect Hdrain. split.
  - destruct (drain_cases indexes c1) as [Hp|(dp' & Hd & Hsub & _)]; [congruence|].
    rewrite Hd in Hdrain. injection Hdrain as <-. by apply consistent_sublist.
  - destruct (collect_cases c1 indexes) as [(_ & res' & Hres & Hlk)|[_ Hp]];
      [|congruence].
    rewrite Hres in Hcollect. injection Hcollect as ->.
    unfold consistent in Hc. rewrite Forall_forall in Hc.
    apply Forall_forall. intros p Hp.
    apply (list_elem_of_lookup res p) in Hp as [m Hm].
    destruct (Forall2_lookup_r _ _ _ _ _ Hlk Hm) as (j & _ & Hj).
    by apply Hc, (list_elem_of_lookup_2 _ (Z.to_nat j)).
Qed.

Lemma DrainOrdered_consistent c (n : Z) (res : list P) c2 :
  consistent c -> DrainOrdered maxcap c n = Ok (res, c2) ->
  consistent c2 /\ vec c2 = vec c /\
  Forall (fun p => length (Vec p) = length (vec c)) res.
Proof.
  intros Hc. unfold DrainOrdered.
  destruct (make_cases (P := P) maxcap n) as [[_ ->]|[_ ->]]; [|done].
  destruct (feed_payloadVecGenerator (kfnSearch c (vec c) n) 0 c c (evicted_refl c))
    as (idx & i & c1 & -> & Hev).
  rewrite !bind_Ok_l. intros Hrun.
  apply bind_Ok_inv in Hrun as (res' & Hcollect & Hrun).
  apply bind_Ok_inv in Hrun as (c2' & Hdrain & [= <- <-]).
  pose proof (evicted_consistent c i c1 Hev Hc) as Hc1.
  destruct (two_passes_consistent c1 idx res' c2' Hc1 Hcollect Hdrain) as [Hc2 Hres].
  assert (vec c1 = vec c) as Hv by (destruct Hev as (_ & _ & _ & _ & ->); done).
  split; [done|]. rewrite <- Hv. split; [|done].
  destruct (drain_cases idx c1) as [Hp|(dp' & Hd & _)]; [congruence|].
  rewrite Hd in Hdrain. by injection Hdrain as <-.
Qed.

(** X18.  Every method that changes the collection keeps it consistent:
    if every payload's vector has the length of the centroid's vector
    before [AddPayload], [Expire], [MemTrim], [DrainUnordered],
    [DrainOrdered] or [KNNLookup], it has afterwards, and the payloads the
    drains and the lookup return have vectors of that length as well. *)
Theorem consistent_kept c p :
  consistent c ->
  consistent (AddPayload growslice c p).2 /\
  (forall c', Expire c = Ok c' -> consistent c') /\
  (forall c', MemTrim growslice c = Ok c' -> consistent c') /\
  (forall n res c', DrainUnordered maxcap c n = Ok (res, c') ->
     consistent c' /\ Forall (fun p => length (Vec p) = length (vec c)) res) /\
  (forall n res c', DrainOrdered maxcap c n = Ok (res, c') ->
     consistent c' /\ Forall (fun p => length (Vec p) = length (vec c)) res) /\
  (forall v k dr res c', KNNLookup maxcap c v k dr = Ok (res, c') ->
     consistent c' /\ Forall (fun p => length (Vec p) = length (vec c)) res).
Proof.
  intros Hc. split; [by apply consistent_AddPayload|].
  split; [|split; [|split; [|split]]].
  - intros c'. rewrite Expire_filter. intros [= <-].
    apply consistent_sublist; [done|apply sublist_filter].
  - intros c'. rewrite MemTrim_filter. intros [= <-].
    apply consistent_sublist; [done|apply sublist_filter].
  - intros n res c' Hrun. destruct (make_cases (P := P) maxcap n) as [[Hn _]|[_ Hp]].
    2:{ unfold DrainUnordered in Hrun. by rewrite Hp in Hrun. }
    destruct (DrainUnordered_front maxcap c n Hn) as (pre & rest & Hdp & Hfront & _).
    rewrite Hfront in Hrun. injection Hrun as <- <-.
    unfold consistent in *. rewrite Hdp in Hc. apply Forall_app in Hc as [Hpre Hrest].
    split; [done|]. eapply Forall_sublist_of; [apply sublist_filter|done].
  - intros n res c' Hrun.
    by destruct (DrainOrdered_consistent c n res c' Hc Hrun) as (? & _ & ?).
  - intros v k dr res c'. unfold KNNLookup.
    destruct (make_cases (P := P) maxcap k) as [[_ ->]|[_ ->]]; [|done].
    destruct (feed_payloadVecGenerator (knnSearch c v k) 0 c c (evicted_refl c))
      as (idx & i & c1 & -> & Hev).
    rewrite !bind_Ok_l. intros Hrun.
    apply bind_Ok_inv in Hrun as (res' & Hcollect & Hrun).
    pose proof (evicted_consistent c i c1 Hev Hc) as Hc1.
    assert (vec c1 = vec c) as Hv by (destruct Hev as (_ & _ & _ & _ & ->); done).
    destruct dr.
    + apply bind_Ok_inv in Hrun as (c2' & Hdrain & [= <- <-]).
      rewrite <- Hv. by apply (two_passes_consistent c1 idx).
    + injection Hrun as <- <-. split; [done|]. rewrite <- Hv.
      destruct (collect_cases c1 idx) as [(_ & res'' & Hres & Hlk)|[_ Hp]];
        [|congruence].
      rewrite Hres in Hcollect. injection Hcollect as ->.
      unfold consistent in Hc1. rewrite Forall_forall in Hc1.
      apply Forall_forall. intros q Hq.
      apply (list_elem_of_lookup res' q) in Hq as [m Hm].
      destruct (Forall2_lookup_r _ _ _ _ _ Hlk Hm) as (j & _ & Hj).
      by apply Hc1, (list_elem_of_lookup_2 _ (Z.to_nat j)).
Qed.

End Invariants.

Section InvariantsHeap.
Context {float64 P : Type} `{PayloadContainer float64 P}.
Variable growslice : nat -> nat -> nat.
Variable maxcap : Z.

Implicit Types (c : Centroid float64 P) (p : P) (dp : list P).
Implicit Types (h : gmap nat (Centroid float64 P)).

(** Replacing a centroid of the heap by what [AddPayload] makes of it. *)
Lemma heap_AddPayload h (a : nat) c p :
  h !! a = Some c ->
  (forall b cb, h !! b = Some cb -> consistent cb) ->
  (forall b cb, <[a := (AddPayload growslice c p).2]> h !! b = Some cb ->
     consistent cb) /\
  dom (<[a := (AddPayload growslice c p).2]> h) = dom h.
Proof.
  intros Ha Hall. split.
  - intros b cb. destruct (decide (a = b)) as [<-|Hne].
    + rewrite lookup_insert_eq. intros [= <-].
      apply consistent_AddPayload. by eapply Hall.
    + rewrite lookup_insert_ne by done. apply Hall.
  - apply dom_insert_lookup_L. by eexists.
Qed.

Lemma distributeOne_consistent (self : nat) (receivers : list nat) h p h' :
  (forall b cb, h !! b = Some cb -> consistent cb) ->
  distributeOne growslice self receivers h p = Ok h' ->
  (forall b cb, h' !! b = Some cb -> consistent cb) /\ dom h' = dom h.
Proof.
  intros Hall. unfold distributeOne, deref.
  destruct (h !! self) as [cs|] eqn:Hself; [|done].
  rewrite bind_Ok_l. intros Hrun.
  apply bind_Ok_inv in Hrun as ([indexes j] & _ & Hrun).
  destruct indexes as [|i0 rest].
  - rewrite bind_Ok_l, Hself, bind_Ok_l in Hrun. injection Hrun as <-.
    by apply heap_AddPayload.
  - apply bind_Ok_inv in Hrun as ([ok h1] & Hrecv & Hrun).
    apply bind_Ok_inv in Hrecv as (a & _ & Hrecv).
    destruct (h !! a) as [r|] eqn:Hr; [|done].
    rewrite bind_Ok_l in Hrecv.
    destruct (heap_AddPayload h a r p Hr Hall) as [Hall1 Hdom1].
    destruct (AddPayload growslice r p) as [ok' r'] eqn:Hadd.
    simpl in Hall1, Hdom1. injection Hrecv as <- <-.
    destruct ok'.
    + injection Hrun as <-. done.
    + destruct (<[a := r']> h !! self) as [cs1|] eqn:Hself1; [|done].
      rewrite bind_Ok_l in Hrun. injection Hrun as <-.
      destruct (heap_AddPayload _ self cs1 p Hself1 Hall1) as [Hall2 Hdom2].
      split; [done|]. by rewrite Hdom2.
Qed.

(** X19.  Whatever the two searches answer, when [DistributePayload]
    returns, every centroid of the heap is still consistent (no payload has
    been put where its vector does not fit) and the heap has the same
    centroids as before. *)
Theorem DistributePayload_keeps_consistent h (self : nat) (n : Z)
    (receivers : list nat) h' :
  (forall b cb, h !! b = Some cb -> consistent cb) ->
  DistributePayload growslice maxcap h self n receivers = Ok h' ->
  (forall b cb, h' !! b = Some cb -> consistent cb) /\ dom h' = dom h.
Proof.
  intros Hall. unfold DistributePayload, deref.
  destruct (length receivers =? 0)%nat; [by intros [= <-]|].
  destruct (h !! self) as [c|] eqn:Hself; [|done].
  rewrite bind_Ok_l. intros Hrun.
  apply bind_Ok_inv in Hrun as ([data c2] & Hdrain & Hrun).
  destruct (DrainOrdered_consistent maxcap c n data c2 (Hall _ _ Hself) Hdrain)
    as (Hc2 & _ & _).
  assert (Hstart : (forall b cb, <[self := c2]> h !! b = Some cb -> consistent cb) /\
                   dom (<[self := c2]> h) = dom h).
  { split.
    - intros b cb. destruct (decide (self = b)) as [<-|Hne].
      + rewrite lookup_insert_eq. by intros [= <-].
      + rewrite lookup_insert_ne by done. apply Hall.
    - apply dom_insert_lookup_L. by eexists. }
  clear Hdrain. revert Hrun Hstart. generalize (<[self := c2]> h). clear.
  induction data as [|p data IH]; intros h0 Hrun [Hall0 Hdom0].
  - by injection Hrun as <-.
  - cbn [forRange] in Hrun. apply bind_Ok_inv in Hrun as (h1 & Hone & Hrun).
    destruct (distributeOne_consistent self receivers h0 p h1 Hall0 Hone)
      as [Hall1 Hdom1].
    apply (IH h1 Hrun). split; [done|]. by rewrite Hdom1.
Qed.

Lemma addAll_accepted (ps : list P) :
  forall c,
    Forall (fun p => length (Vec p) = length (vec c) /\ Expired p = false) ps ->
    DataPoints (addAll growslice c ps) = DataPoints c ++ ps /\
    vec (addAll growslice c ps) = vec c.
Proof.
  induction ps as [|p ps IH]; intros c Hps.
  - simpl. by rewrite app_nil_r.
  - apply Forall_cons in Hps as [[Hlen Hexp] Hps].
    destruct (AddPayload_accepted growslice c p Hlen Hexp) as (cp & Hadd).
    unfold addAll in *. cbn [foldl]. rewrite Hadd. cbn [snd].
    destruct (IH (set_DataPoints c (DataPoints c ++ [p]) cp)) as [Hdp Hvec];
      [done|].
    rewrite Hdp, Hvec. simpl. by rewrite <- app_assoc.
Qed.

(** X20.  Draining and adding back: for a consistent centroid and
    [n >= 0] within the capacity [make] grants, handing the payloads [DrainUnordered(n)] returns back to
    [AddPayload] one after the other puts all of them behind what was left,
    and the payloads that are not expired are, up to their order, the ones
    there were before the drain. *)
Theorem DrainUnordered_addAll c (n : Z) :
  consistent c -> 0 <= n <= maxcap ->
  exists res c',
    DrainUnordered maxcap c n = Ok (res, c') /\
    DataPoints (addAll growslice c' res) = DataPoints c' ++ res /\
    filter live (DataPoints (addAll growslice c' res))
    ≡ₚ filter live (DataPoints c).
Proof.
  intros Hc Hn.
  destruct (DrainUnordered_front maxcap c n Hn) as (pre & rest & Hdp & Hrun & _).
  eexists _, _. split; [exact Hrun|].
  destruct (addAll_accepted (filter live pre)
              (set_DataPoints c rest (DataPoints_cap c))) as [Hadd _].
  { unfold consistent in Hc. rewrite Hdp in Hc. apply Forall_app in Hc as [Hpre _].
    rewrite Forall_forall in Hpre. apply Forall_forall. intros p Hp.
    apply list_elem_of_filter in Hp as [Hlive Hp]. split; [by apply Hpre|done]. }
  split; [exact Hadd|]. rewrite Hadd. simpl.
  rewrite Hdp, !filter_app, filter_live_idem. apply Permutation_app_comm.
Qed.

End InvariantsHeap.

Section MoveAndDrain.
Context {float64 P : Type} `{PayloadContainer float64 P}.
Variable maxcap : Z.

Implicit Types (c : Centroid float64 P) (p : P) (dp : list P).

(** X21.  [MoveVector] reaches a fixed point at once: called again on the
    centroid it leaves, it returns the same flag and leaves the same
    vector. *)
Theorem MoveVector_fixed_point
    (VecMean : consumer float64 (list float64 * bool)) c :
  exists (ok : bool) c1 c2,
    MoveVector VecMean c = Ok (ok, c1) /\
    MoveVector VecMean c1 = Ok (ok, c2) /\
    vec c2 = vec c1.
Proof.
  assert (Hrun : forall c0, exists (mean : list float64) (ok : bool) i c0',
    (mean, ok) = feedList VecMean (Vec <$> filter live (DataPoints c0)) /\
    evicted c0 i c0' /\
    MoveVector VecMean c0 = Ok (ok, if ok then set_vec c0' mean else c0')).
  { intros c0.
    destruct (feed_payloadVecGenerator VecMean 0 c0 c0 (evicted_refl c0))
      as ([mean ok] & i & c0' & Hfeed & Hev).
    destruct (feed_payloadVecGenerator_answer VecMean 0 c0) as (i' & c0'' & Hans);
      [lia|].
    rewrite Hfeed, drop_0 in Hans. injection Hans as Hans _ _.
    exists mean, ok, i, c0'. split; [done|]. split; [done|].
    unfold MoveVector. rewrite Hfeed, bind_Ok_l. by destruct ok. }
  destruct (Hrun c) as (mean & ok & i & c' & Hans & Hev & Hmove).
  set (c1 := if ok then set_vec c' mean else c') in *.
  destruct (Hrun c1) as (mean1 & ok1 & i1 & c1' & Hans1 & Hev1 & Hmove1).
  assert (Hdp : filter live (DataPoints c1) = filter live (DataPoints c)).
  { destruct Hev as (_ & _ & <- & _). unfold c1. by destruct ok. }
  rewrite Hdp, <- Hans in Hans1. injection Hans1 as -> ->.
  exists ok, c1. eexists. split; [done|]. split; [exact Hmove1|].
  assert (vec c1' = vec c1) as Hv by (destruct Hev1 as (_ & _ & _ & _ & ->); done).
  unfold c1 in *. destruct ok; [done|]. exact Hv.
Qed.

(** [DrainUnordered] with the condition on which its loop ends. *)
Lemma DrainUnordered_exit c (n : Z) :
  0 <= n <= maxcap ->
  exists pre rest,
    DataPoints c = pre ++ rest /\
    DrainUnordered maxcap c n
    = Ok (filter live pre, set_DataPoints c rest (DataPoints_cap c)) /\
    (rest = [] \/ Z.of_nat (length (filter live pre)) = n).
Proof.
  intros Hn. unfold DrainUnordered.
  rewrite make_Ok, bind_Ok_l by done. cbv beta iota.
  set (I := fun s : list P * Centroid float64 P =>
    exists pre rest, DataPoints c = pre ++ rest /\
      s.2 = set_DataPoints c rest (DataPoints_cap c) /\
      s.1 = filter live pre /\ Z.of_nat (length s.1) <= n).
  set (m := fun s : list P * Centroid float64 P => length (DataPoints s.2)).
  match goal with |- context [while ?f ?cnd ?bdy ?s0] =>
    assert (exists s', while f cnd bdy s0 = Ok s' /\ I s' /\ cnd s' = false)
      as ([res c'] & Hw & (pre & rest & Hdp & Hc' & Hres & Hle) & Hcond);
      [apply (while_spec I m)|]
  end.
  - intros [res cur] (pre & rest & Hdp & Hcur & Hres & Hle) Hc.
    simpl in *. subst cur res. simpl in Hc.
    apply andb_true_iff in Hc as [Hne Hlt]. apply Z.ltb_lt in Hlt.
    destruct rest as [|p rest]; [done|].
    change (index (p :: rest) 0) with (index (p :: rest) (Z.of_nat 0)).
    rewrite (index_of_nat _ 0%nat p), bind_Ok_l by done.
    change 0 with (Z.of_nat 0). rewrite rmPayload_of_nat by (simpl; lia).
    simpl. eexists. split; [done|]. split; [|unfold m; simpl; lia].
    exists (pre ++ [p]), rest. rewrite <- app_assoc. simpl.
    split; [done|]. split; [done|]. rewrite filter_live_snoc.
    destruct (Expired p); simpl; [done|].
    split; [done|]. rewrite length_app. simpl. lia.
  - exists [], (DataPoints c). simpl. rewrite set_DataPoints_id.
    repeat split; try done; lia.
  - unfold m. simpl. lia.
  - simpl in *. subst res c'. exists pre, rest. rewrite Hw.
    split; [done|]. split; [done|]. simpl in Hcond.
    apply andb_false_iff in Hcond as [Hnil|Hfull].
    + left. apply negb_false_iff, Nat.eqb_eq in Hnil.
      by destruct rest.
    + right. apply Z.ltb_ge in Hfull. lia.
Qed.

(** X22.  [DrainUnordered(n)] with [n] at least [LenDP()] and within the
    capacity [make] grants empties the collection and returns every payload
    that is not expired, in store order.  (A larger [n] panics in [make].) *)
Theorem DrainUnordered_all c (n : Z) :
  LenDP c <= n <= maxcap ->
  DrainUnordered maxcap c n
  = Ok (filter live (DataPoints c), set_DataPoints c [] (DataPoints_cap c)).
Proof.
  intros [Hlen Hcap]. unfold LenDP in Hlen.
  destruct (DrainUnordered_exit c n) as (pre & rest & Hdp & Hrun & Hexit); [lia|].
  assert (rest = []) as ->.
  { destruct Hexit as [?|Hfull]; [done|].
    pose proof (length_filter live pre) as Hle.
    rewrite Hdp, length_app in Hlen. destruct rest; [done|simpl in Hlen; lia]. }
  rewrite app_nil_r in Hdp. by rewrite Hrun, Hdp.
Qed.

End MoveAndDrain.

(** ** The further properties at concrete inputs *)

Module ExtraWitnesses.
Import PrimFloat Scenario.

Lemma payloadVecGenerator_exhausted_witness :
  let c := centroid origin [p1; e9] in
  let c' := set_DataPoints c [p1] 2 in
  1%nat = 1%nat /\ DataPoints c' = filter live (DataPoints c) /\ Expire c = Ok c'.
Proof.
  apply (payloadVecGenerator_exhausted 1 1 (centroid origin [p1; e9])
           (set_DataPoints (centroid origin [p1; e9]) [p1] 2)).
  - simpl. lia.
  - repeat constructor.
  - vm_compute. reflexivity.
Defined.

Lemma KNNLookup_drain_flag_witness :
  let c := centroid origin [e9; p1; p3] in
  exists c1,
    KNNLookup maxcap c origin 1 false = Ok ([p1], c1) /\
    DataPoints (set_DataPoints c [p3] 3) `sublist_of` DataPoints c1 /\
    LenDP (set_DataPoints c [p3] 3) = LenDP c1 - Z.of_nat (length [p1]).
Proof.
  apply (KNNLookup_drain_flag maxcap (centroid origin [e9; p1; p3]) origin 1 [p1]
           (set_DataPoints (centroid origin [e9; p1; p3]) [p3] 3)).
  vm_compute. reflexivity.
Defined.

Lemma DrainOrdered_increasing_pair_witness :
  let c := centroid origin [p3; p2; p1] in
  (0 + 1 + 1 < LenDP c ->
   exists pj pj' c2,
     DrainOrdered maxcap c 2 = Ok ([pj; pj'], c2) /\
     DataPoints c !! Z.to_nat 0 = Some pj /\
     DataPoints c !! Z.to_nat 1 = Some pj' /\
     DataPoints c2 = delete (Z.to_nat 0) (delete (Z.to_nat (1 + 1)) (DataPoints c)) /\
     DataPoints c2 !! Z.to_nat (1 - 1) = Some pj') /\
  (1 + 1 = LenDP c -> DrainOrdered maxcap c 2 = Panic).
Proof.
  apply (DrainOrdered_increasing_pair maxcap (centroid origin [p3; p2; p1]) 2 0 1 3
           (centroid origin [p3; p2; p1])).
  - vm_compute. split; discriminate.
  - vm_compute. reflexivity.
  - lia.
  - vm_compute. reflexivity.
Defined.

Lemma consistent_kept_witness :
  let c := centroid origin [e9; p1; p2] in
  consistent (AddPayload growslice c p3).2 /\
  (forall c', Expire c = Ok c' -> consistent c') /\
  (forall c', MemTrim growslice c = Ok c' -> consistent c') /\
  (forall n res c', DrainUnordered maxcap c n = Ok (res, c') ->
     consistent c' /\ Forall (fun p => length (Vec p) = length (vec c)) res) /\
  (forall n res c', DrainOrdered maxcap c n = Ok (res, c') ->
     consistent c' /\ Forall (fun p => length (Vec p) = length (vec c)) res) /\
  (forall v k dr res c', KNNLookup maxcap c v k dr = Ok (res, c') ->
     consistent c' /\ Forall (fun p => length (Vec p) = length (vec c)) res).
Proof.
  apply (consistent_kept growslice maxcap (centroid origin [e9; p1; p2]) p3).
  repeat constructor.
Defined.

Lemma DistributePayload_keeps_consistent_witness :
  let h : gmap nat (Centroid float payload) :=
    {[ 0%nat := centroid origin [p3; p2; p1];
       1%nat := centroid [5%float; 0%float] [] ]} in
  exists h',
    DistributePayload growslice maxcap h 0%nat 2 [1%nat] = Ok h' /\
    (forall b cb, h' !! b = Some cb -> consistent cb) /\
    dom h' = dom h.
Proof.
  simpl.
  destruct (DistributePayload growslice maxcap
              ({[ 0%nat := centroid origin [p3; p2; p1];
                  1%nat := centroid [5%float; 0%float] [] ]}
               : gmap nat (Centroid float payload)) 0%nat 2 [1%nat])
    as [h'| |] eqn:Hrun; [|by vm_compute in Hrun..].
  exists h'. split; [done|].
  apply (DistributePayload_keeps_consistent growslice maxcap _ 0%nat 2 [1%nat] h');
    [|exact Hrun].
  intros b cb Hb.
  apply lookup_insert_Some in Hb as [[_ <-]|[_ Hb]]; [repeat constructor|].
  apply lookup_singleton_Some in Hb as [_ <-]. constructor.
Defined.

Lemma DrainUnordered_addAll_witness :
  let c := centroid origin [e9; p1; p2] in
  exists res c',
    DrainUnordered maxcap c 1 = Ok (res, c') /\
    DataPoints (addAll growslice c' res) = DataPoints c' ++ res /\
    filter live (DataPoints (addAll growslice c' res))
    ≡ₚ filter live (DataPoints c).
Proof.
  apply (DrainUnordered_addAll growslice maxcap (centroid origin [e9; p1; p2]) 1);
    [repeat constructor|vm_compute; split; discriminate].
Defined.

Lemma DrainUnordered_all_witness :
  let c := centroid origin [e9; p1; p2] in
  DrainUnordered maxcap c 5
  = Ok (filter live (DataPoints c), set_DataPoints c [] (DataPoints_cap c)).
Proof.
  apply (DrainUnordered_all maxcap (centroid origin [e9; p1; p2]) 5).
  vm_compute. split; discriminate.
Defined.

(** On binary64 numbers: the similarity of [(1, 0)] with itself is 1; with
    one vector of zeros and one that is not, the guard for two norms of 0
    does not apply and the divisions give NaN. *)
Lemma CosineSimilarity_binary64 :
  CosineSimilarity (Some [1%float; 0%float]) (Some [1%float; 0%float])
  = Ok (1%float, None) /\
  CosineSimilarity (Some origin) (Some [1%float; 0%float]) = Ok (nan, None).
Proof. split; vm_compute; reflexivity. Qed.

End ExtraWitnesses.
